(** * theater-time: the layout negotiator of [typedefs.hpp],
      [directors.hpp] and [main.cpp], embedded in Rocq.

    Every number of the program is a C++ [float].  It is modelled as an
    IEEE 754 binary32 value ([spec_float] at precision 24 and maximal
    exponent 128), with the rounding additions, subtractions and the
    comparisons of the standard library's executable specification. *)

From Stdlib Require Import ZArith List String Bool Lia.
From Stdlib Require Import Floats.SpecFloat.
Import ListNotations.

Local Open Scope Z_scope.

(** ** binary32 arithmetic *)

Definition float : Type := spec_float.

Module F32.

Definition prec : Z := 24.
Definition emax : Z := 128.

Definition add (x y : float) : float := SFadd prec emax x y.
Definition sub (x y : float) : float := SFsub prec emax x y.

(** [x < y] and [x <= y] of C++: both are false as soon as one side is a
    NaN. *)
Definition ltb (x y : float) : bool := SFltb x y.
Definition leb (x y : float) : bool := SFleb x y.

(** [x > y] is [y < x], [x >= y] is [y <= x]. *)
Definition gtb (x y : float) : bool := ltb y x.
Definition geb (x y : float) : bool := leb y x.

(** [x == y]: false on a NaN, true on zeros of either sign. *)
Definition eqb (x y : float) : bool := SFeqb x y.

(** The conversion of an integer literal ([0], [1], [200]) to [float]. *)
Definition of_Z (z : Z) : float := binary_normalize prec emax z 0 false.

Definition is_nan (x : float) : bool :=
  match x with S754_nan => true | _ => false end.

(** [std::min(a, b)] of <algorithm>: [(b < a) ? b : a]. *)
Definition std_min (a b : float) : float := if ltb b a then b else a.

End F32.

Declare Scope f32_scope.
Delimit Scope f32_scope with f32.
Infix "+" := F32.add : f32_scope.
Infix "-" := F32.sub : f32_scope.
Infix "<?" := F32.ltb : f32_scope.
Infix "<=?" := F32.leb : f32_scope.
Infix ">?" := F32.gtb : f32_scope.
Infix ">=?" := F32.geb : f32_scope.

(** ** [namespace val] of typedefs.hpp *)

Module val.

(** [std::variant<def, lnt>]: [def] is the strict value, [lnt] the lenient
    one; each wraps one [float value]. *)
Inductive Direction : Type :=
| def (value : float)
| lnt (value : float).

(** [enum class Stage::Aspect]. *)
Module Aspect.
Inductive t : Type :=
| horizontal
| vertical.
End Aspect.

Record Stage : Type := mkStage {
  left : float;
  right : float;
  top : float;
  bottom : float
}.

Definition aspect (s : Stage) : Aspect.t :=
  if (right s - left s >? bottom s - top s)%f32 then Aspect.horizontal
  else Aspect.vertical.

Record AxisDirection : Type := mkAxisDirection {
  low : Direction;
  high : Direction
}.

Definition performance : Type := Stage.

Record Instruction : Type := mkInstruction {
  horizontal : AxisDirection;
  vertical : AxisDirection
}.

(** The character grid the draw operations write to. *)
Record Screen : Type := mkScreen {
  width : N;
  height : N;
  buffer : list (list Ascii.ascii)
}.

(** [std::function<void(Screen&)>]: the deferred draw operation; it
    updates the screen it is handed, or throws ([None]). *)
Definition draw_fn : Type := Screen -> option Screen.

Definition preproduction : Type := (Stage * draw_fn)%type.

Record StageLayout : Type := mkStageLayout {
  x_offset : float;
  y_offset : float;
  horizontal_margin : float;
  vertical_margin : float;
  x_size : float;
  y_size : float
}.

Definition instruct_fn : Type := Stage -> StageLayout -> Instruction.
Definition adjust_fn : Type :=
  Stage -> performance -> StageLayout -> StageLayout.

Record Director : Type := mkDirector {
  instruct : instruct_fn;
  adjust : adjust_fn
}.

Definition perform_fn : Type := Instruction -> string -> preproduction.

Record Actor : Type := mkActor {
  perfom : perform_fn
}.

Record Crew : Type := mkCrew {
  director : Director;
  actor : Actor
}.

(** [struct Set] ([Set] itself is a sort of Rocq). *)
Record Set_ : Type := mkSet {
  stage : Stage;
  stage_layout : StageLayout;
  crew : Crew
}.

Definition extract (value : Direction) : float :=
  match value with
  | def v => v
  | lnt v => v
  end.

(** The two-variant visit of [resolve_axis]: one lambda per pair of
    alternatives, in the order of the source. *)
Definition resolve_axis (instruction : AxisDirection) (incoming_value : float)
  : float :=
  match low instruction, high instruction with
  | def lower, def upper =>
      if (incoming_value <? lower)%f32 then lower else upper
  | def lower, lnt upper =>
      if (incoming_value <? lower)%f32 then lower
      else F32.std_min upper incoming_value
  | lnt lower, lnt upper =>
      if (incoming_value <? lower)%f32 then lower
      else F32.std_min upper incoming_value
  | lnt lower, def upper => upper
  end.

Definition resolve_direction (dir : Direction) (incoming_value : float)
  : float :=
  match dir with
  | lnt direction => F32.std_min direction incoming_value
  | def direction => direction
  end.

End val.

(** ** [namespace dir] of directors.hpp *)

Module dir.

Definition Lenient (v : float) : val.Direction := val.lnt v.
Definition Strict (v : float) : val.Direction := val.def v.

Module stack.

Import val.

Definition horizontal_next : instruct_fn := fun stage layout =>
  mkInstruction
    (mkAxisDirection (Strict (x_offset layout + horizontal_margin layout)%f32)
                     (Lenient (right stage)))
    (mkAxisDirection (Strict (top stage)) (Lenient (bottom stage))).

Definition horizontal_adjust : adjust_fn := fun _ perf layout =>
  let next := layout in
  let next :=
    mkStageLayout
      (x_offset next
       + ((right perf - left perf) + F32.of_Z 1 + horizontal_margin layout))%f32
      (y_offset next) (horizontal_margin next) (vertical_margin next)
      (x_size next) (y_size next) in
  let next :=
    mkStageLayout
      (x_offset next) (y_offset next)
      (horizontal_margin next) (vertical_margin next)
      (x_size next + (left perf + right perf))%f32 (y_size next) in
  next.

Definition vertical_next : instruct_fn := fun stage layout =>
  mkInstruction
    (mkAxisDirection (Strict (left stage)) (Lenient (right stage)))
    (mkAxisDirection (Strict (y_offset layout + vertical_margin layout)%f32)
                     (Lenient (bottom stage))).

Definition vertical_adjust : adjust_fn := fun _ perf layout =>
  let next := layout in
  let next :=
    mkStageLayout
      (x_offset next)
      (y_offset next
       + ((bottom perf - top perf) + F32.of_Z 1 + vertical_margin layout))%f32
      (horizontal_margin next) (vertical_margin next)
      (x_size next) (y_size next) in
  let next :=
    mkStageLayout
      (x_offset next) (y_offset next)
      (horizontal_margin next) (vertical_margin next)
      (x_size next) (y_size next + (top perf + bottom perf + F32.of_Z 1))%f32 in
  next.

Definition magically_next : instruct_fn := fun stage layout =>
  match aspect stage with
  | Aspect.horizontal => horizontal_next stage layout
  | Aspect.vertical => vertical_next stage layout
  end.

Definition magically_adjust : adjust_fn := fun stage perf layout =>
  match aspect stage with
  | Aspect.horizontal => horizontal_adjust stage perf layout
  | Aspect.vertical => vertical_adjust stage perf layout
  end.

Definition horizontally : Director := mkDirector horizontal_next horizontal_adjust.
Definition vertically : Director := mkDirector vertical_next vertical_adjust.
Definition magically : Director := mkDirector magically_next magically_adjust.

End stack.

End dir.

(** ** The negotiation loop of main.cpp *)

Definition TPerformanceBuffer : Type := list val.preproduction.

Definition act_scene (set : val.Set_) (script : string)
  : val.Set_ * val.preproduction :=
  let stage := val.stage set in
  let stage_layout := val.stage_layout set in
  let crew := val.crew set in
  let director := val.director crew in
  let performer := val.actor crew in
  let instruction := val.instruct director stage stage_layout in
  let result := val.perfom performer instruction script in
  (val.mkSet stage
             (val.adjust director stage (fst result) stage_layout)
             (val.mkCrew director performer),
   result).

Definition produce_scene (set : val.Set_) (script : string)
  : val.Set_ * val.preproduction :=
  act_scene set script.

(** [std::deque] and [std::vector] as lists growing at the back;
    [back()] of an empty deque has no defined result. *)
Definition push_back {A : Type} (q : list A) (x : A) : list A := q ++ [x].

Fixpoint back {A : Type} (q : list A) : option A :=
  match q with
  | [] => None
  | [x] => Some x
  | _ :: q' => back q'
  end.

(** [std::for_each] with a body that updates the captured state [S] and
    may hit an undefined operation. *)
Fixpoint for_each {A S : Type} (l : list A) (body : S -> A -> option S) (s : S)
  : option S :=
  match l with
  | [] => Some s
  | x :: l' =>
      match body s x with
      | Some s' => for_each l' body s'
      | None => None
      end
  end.

(** The state the lambda of [produce_scenes] captures by reference:
    [set_queue] and [into]. *)
Definition scenes_body (st : list val.Set_ * TPerformanceBuffer)
  (script : string) : option (list val.Set_ * TPerformanceBuffer) :=
  let '(set_queue, into) := st in
  match back set_queue with
  | Some set =>
      let preprod := produce_scene set script in
      let into := push_back into (snd preprod) in
      let set_queue := push_back set_queue (fst preprod) in
      Some (set_queue, into)
  | None => None
  end.

(** [produce_scenes] with its local [set_queue] kept in the result. *)
Definition produce_scenes_queue (initial_set : val.Set_)
  (into : TPerformanceBuffer) (scripts : list string)
  : option (list val.Set_ * TPerformanceBuffer) :=
  let set_queue := [initial_set] in
  for_each scripts scenes_body (set_queue, into).

(** [produce_scenes]: its effect is the new content of [into]. *)
Definition produce_scenes (initial_set : val.Set_)
  (into : TPerformanceBuffer) (scripts : list string)
  : option TPerformanceBuffer :=
  option_map snd (produce_scenes_queue initial_set into scripts).

(** ** The loop of the specification, and the data of scenario 1 *)

Section SpecSide.

Import val.

(** The loop as the specification words it: for each item in order,
    [next], then [resolve], then [advance]; the results are collected in
    order and the last cursor is returned with them. *)
Fixpoint run (stage : Stage) (cursor : StageLayout) (director : Director)
  (performer : Actor) (items : list string)
  : list preproduction * StageLayout :=
  match items with
  | [] => ([], cursor)
  | item :: items' =>
      let instruction := instruct director stage cursor in
      let result := perfom performer instruction item in
      let cursor' := adjust director stage (fst result) cursor in
      let rest := run stage cursor' director performer items' in
      (result :: fst rest, snd rest)
  end.

(** The stage and the crew of a set are those of [initial]. *)
Definition same_frame (initial set : Set_) : Prop :=
  stage set = stage initial /\
  director (crew set) = director (crew initial) /\
  actor (crew set) = actor (crew initial).

Definition scenario1_stage : Stage :=
  mkStage (F32.of_Z 0) (F32.of_Z 200) (F32.of_Z 0) (F32.of_Z 40).

Definition scenario1_cursor : StageLayout :=
  mkStageLayout (F32.of_Z 0) (F32.of_Z 0) (F32.of_Z 0) (F32.of_Z 0)
                (F32.of_Z 0) (F32.of_Z 0).

(** A placement from column 0 to column 40, three rows high. *)
Definition scenario1_placement : performance :=
  mkStage (F32.of_Z 0) (F32.of_Z 40) (F32.of_Z 0) (F32.of_Z 2).

(** A performer for the scenarios: it starts at the low bounds it is
    given and occupies [w] columns and three rows, whatever the script. *)
Definition fixed_width_performer (w : Z) : Actor :=
  mkActor (fun instr _ =>
    let x_start := extract (low (horizontal instr)) in
    let y_start := extract (low (vertical instr)) in
    (mkStage x_start (x_start + F32.of_Z w)%f32
             y_start (y_start + F32.of_Z 2)%f32,
     fun screen => Some screen)).

Definition scenario5_set : Set_ :=
  mkSet (mkStage (F32.of_Z 0) (F32.of_Z 60) (F32.of_Z 0) (F32.of_Z 20))
        (mkStageLayout (F32.of_Z 0) (F32.of_Z 0) (F32.of_Z 0) (F32.of_Z 0)
                       (F32.of_Z 0) (F32.of_Z 0))
        (mkCrew dir.stack.horizontally (fixed_width_performer 10)).

End SpecSide.

(** ** The helpers of main.cpp and [make_screen] *)

(** [size_t]: 64 bits, unsigned, wrapping. *)
Module SizeT.

Definition modulus : Z := 2 ^ 64.
Definition wrap (z : Z) : Z := z mod modulus.

Definition add (x y : Z) : Z := wrap (x + y).
Definition sub (x y : Z) : Z := wrap (x - y).
Definition div (x y : Z) : Z := x / y.
Definition rem (x y : Z) : Z := x mod y.
Definition land (x y : Z) : Z := Z.land x y.
Definition lnot (x : Z) : Z := wrap (Z.lnot x).

Definition in_range (z : Z) : Prop := 0 <= z < modulus.

End SizeT.

(** [round_downwards]: [number - (pow2 - 1) & ~(pow2 - 1)], where the
    subtraction binds tighter than [&]. *)
Definition round_downwards (number pow2 : Z) : Z :=
  SizeT.land (SizeT.sub number (SizeT.sub pow2 1))
             (SizeT.lnot (SizeT.sub pow2 1)).

(** The default argument [pow2 = 2]. *)
Definition round_downwards_default (number : Z) : Z :=
  round_downwards number 2.

Definition split_value (number : Z) : Z * Z :=
  if SizeT.rem number 2 =? 0
  then (SizeT.div number 2, SizeT.div number 2)
  else (SizeT.div number 2,
        SizeT.add (SizeT.div number 2) (SizeT.rem number 2)).

(** The blank the screen is filled with. *)
Definition space : Ascii.ascii := Ascii.ascii_of_nat 32.

(** [std::vector::resize (n)], new elements being value-initialised to
    [d]; [std::fill] over a whole vector. *)
Definition resize {A : Type} (v : list A) (n : nat) (d : A) : list A :=
  firstn n v ++ repeat d (n - List.length v).

Definition fill {A : Type} (v : list A) (c : A) : list A :=
  map (fun _ => c) v.

Definition make_screen (width height : N) : val.Screen :=
  let screen := val.mkScreen width height [] in
  let buffer := resize (val.buffer screen) (N.to_nat height) [] in
  let buffer :=
    map (fun row => fill (resize row (N.to_nat width) Ascii.zero) space)
        buffer in
  val.mkScreen (val.width screen) (val.height screen) buffer.

(** ** Notions used to state the properties of the loop *)

(** The sets [produce_scenes] pushes on its queue, one per script. *)
Fixpoint set_history (set : val.Set_) (scripts : list string)
  : list val.Set_ :=
  match scripts with
  | [] => []
  | script :: scripts' =>
      let next := fst (act_scene set script) in
      next :: set_history next scripts'
  end.

(** The three directors of [dir::stack]. *)
Definition stack_director (d : val.Director) : Prop :=
  d = dir.stack.horizontally \/ d = dir.stack.vertically \/
  d = dir.stack.magically.

(** A stage with its two axes exchanged. *)
Definition transpose (s : val.Stage) : val.Stage :=
  val.mkStage (val.top s) (val.bottom s) (val.left s) (val.right s).

(** ** The renderer of main.cpp *)

(** [static_cast<size_t>] of a [float]: the fraction is dropped; there is
    no defined result ([None]) when what is left is not a [size_t]. *)
Definition to_size_t (x : float) : option Z :=
  match x with
  | S754_zero _ => Some 0
  | S754_finite s m e =>
      let magnitude :=
        if 0 <=? e then Z.pos m * 2 ^ e else Z.pos m / 2 ^ (- e) in
      if s then (if magnitude =? 0 then Some 0 else None)
      else if magnitude <? SizeT.modulus then Some magnitude else None
  | S754_infinity _ => None
  | S754_nan => None
  end.

(** A [size_t] operand of a [float] addition is converted to [float],
    rounding to nearest. *)
Definition of_size_t (n : Z) : float := F32.of_Z n.

Definition f32_mul (x y : float) : float := SFmul F32.prec F32.emax x y.

Definition y_needed_by_text : float := F32.of_Z 1.
Definition border_size : float := F32.of_Z 1.

(** The stage the renderer reports (the first component of its result);
    [None] when converting the width that is left hits an undefined
    conversion. *)
Definition renderer_stage (instr : val.Instruction) (script : string)
  : option val.Stage :=
  let x_start := val.extract (val.low (val.horizontal instr)) in
  let x_absolute_end := val.extract (val.high (val.horizontal instr)) in
  let y_start := val.extract (val.low (val.vertical instr)) in
  let x_relative_end := (x_absolute_end - x_start)%f32 in
  match to_size_t x_relative_end with
  | Some available =>
      let x_end :=
        val.resolve_direction (val.high (val.horizontal instr))
          (x_start
           + of_size_t (Z.min (Z.of_nat (String.length script)) available)
           + f32_mul border_size (F32.of_Z 2))%f32 in
      let y_end :=
        (y_start
         + val.resolve_direction (val.high (val.vertical instr))
             (y_needed_by_text + f32_mul border_size (F32.of_Z 2)))%f32 in
      Some (val.mkStage x_start x_end y_start (y_end - F32.of_Z 1)%f32)
  | None => None
  end.

(** The draw operation of the renderer runs on the buffer of the screen:
    it ends normally, throws with the buffer as it is by then, or hits
    undefined behaviour (an index outside a vector, a conversion without
    result). *)
Module Draw.

Definition buffer_t : Type := list (list Ascii.ascii).

Inductive exception : Type :=
| runtime_error (what : string)
| length_error.

Inductive result (A : Type) : Type :=
| Done (a : A) (buffer : buffer_t)
| Throws (e : exception) (buffer : buffer_t)
| Undefined.

Arguments Done {A} a buffer.
Arguments Throws {A} e buffer.
Arguments Undefined {A}.

Definition M (A : Type) : Type := buffer_t -> result A.

Definition ret {A : Type} (a : A) : M A := fun b => Done a b.

Definition bind {A B : Type} (m : M A) (k : A -> M B) : M B :=
  fun b =>
    match m b with
    | Done a b' => k a b'
    | Throws e b' => Throws e b'
    | Undefined => Undefined
    end.

Definition throw {A : Type} (e : exception) : M A := fun b => Throws e b.

Definition undefined {A : Type} : M A := fun _ => Undefined.

Definition cast_size_t (x : float) : M Z :=
  match to_size_t x with
  | Some n => ret n
  | None => undefined
  end.

(** [v[n] = x] on a vector. *)
Fixpoint update {A : Type} (v : list A) (n : nat) (x : A) : list A :=
  match v, n with
  | [], _ => []
  | _ :: t, O => x :: t
  | h :: t, S n' => h :: update t n' x
  end.

(** [buffer[row][col] = c]; both indices are unchecked. *)
Definition store (row col : Z) (c : Ascii.ascii) : M unit :=
  fun b =>
    match nth_error b (Z.to_nat row) with
    | Some r =>
        if col <? Z.of_nat (List.length r)
        then Done tt (update b (Z.to_nat row) (update r (Z.to_nat col) c))
        else Undefined
    | None => Undefined
    end.

End Draw.

Declare Scope draw_scope.
Delimit Scope draw_scope with draw.
Notation "x <- m ;; k" := (Draw.bind m (fun x => k))
  (at level 61, m at next level, right associativity) : draw_scope.

Section Renderer.

(** [std::string::max_size ()] of the standard library in use. *)
Variable max_size : Z.

Local Open Scope draw_scope.

(** [std::string (count, ch)]. *)
Definition make_string (count : Z) (ch : Ascii.ascii)
  : Draw.M (list Ascii.ascii) :=
  if max_size <? count then Draw.throw Draw.length_error
  else Draw.ret (repeat ch (Z.to_nat count)).

(** [operator+] on strings. *)
Definition concat (a b : list Ascii.ascii) : Draw.M (list Ascii.ascii) :=
  if max_size <? Z.of_nat (List.length a) + Z.of_nat (List.length b)
  then Draw.throw Draw.length_error
  else Draw.ret (a ++ b).

(** [s.substr (0, count)]. *)
Definition substr0 (s : string) (count : Z) : list Ascii.ascii :=
  firstn (Z.to_nat (Z.min count (Z.of_nat (String.length s))))
         (list_ascii_of_string s).

Definition bar : Ascii.ascii := Ascii.ascii_of_nat 124.
Definition dash : Ascii.ascii := Ascii.ascii_of_nat 45.

(** ["|" + std::string (count, ch) + "|"]. *)
Definition border_line (count : Z) (ch : Ascii.ascii)
  : Draw.M (list Ascii.ascii) :=
  filler <- make_string count ch ;;
  s <- concat [bar] filler ;;
  concat s [bar].

(** [for (const auto c : s) buffer[row][col_idx++] = c;], giving the
    [col_idx] it ends with. *)
Fixpoint write_string (row col_idx : Z) (s : list Ascii.ascii) : Draw.M Z :=
  match s with
  | [] => Draw.ret col_idx
  | c :: s' =>
      _ <- Draw.store row col_idx c ;;
      write_string row (SizeT.add col_idx 1) s'
  end.

(** [for (auto row_idx {first}; row_idx < bound; ++row_idx) body], run
    with [n] the number of rows from [first] up to [bound]. *)
Fixpoint for_rows (n : nat) (row_idx : Z) (body : Z -> Draw.M unit)
  : Draw.M unit :=
  match n with
  | O => Draw.ret tt
  | S n' =>
      _ <- body row_idx ;;
      for_rows n' (SizeT.add row_idx 1) body
  end.

Definition for_rows_between (first bound : Z) (body : Z -> Draw.M unit)
  : Draw.M unit :=
  for_rows (Z.to_nat (bound - first)) first body.

(** The second component of the renderer's result: the closure over
    [script] and [stage], run on the buffer of the screen. *)
Definition renderer_draw (script : string) (stage : val.Stage)
  : Draw.M unit :=
  border_dim <- Draw.cast_size_t border_size ;;
  col_start <- Draw.cast_size_t (val.left stage) ;;
  col_end <- Draw.cast_size_t (val.right stage) ;;
  if col_end <=? col_start
  then Draw.throw (Draw.runtime_error "These values make no sense.")
  else
    let final_width := SizeT.sub col_end col_start in
    let final_script :=
      substr0 script (SizeT.sub final_width (SizeT.wrap (border_dim * 2))) in
    let script_width := Z.of_nat (List.length final_script) in
    let halves := split_value (SizeT.sub final_width script_width) in
    let left_padding := fst halves in
    let right_padding := snd halves in
    let frame_x_start := col_start in
    frame_y_start <- Draw.cast_size_t (val.top stage) ;;
    frame_y_end <- Draw.cast_size_t (val.bottom stage) ;;
    let text_x_start := SizeT.add frame_x_start left_padding in
    let text_y_start :=
      SizeT.add frame_y_start
                (SizeT.div (SizeT.sub frame_y_end frame_y_start) 2) in
    let filler_col_count :=
      SizeT.sub final_width (SizeT.wrap (border_dim * 2)) in
    line <- border_line filler_col_count dash ;;
    _ <- write_string frame_y_start frame_x_start line ;;
    _ <- for_rows_between (SizeT.add frame_y_start 1) text_y_start
           (fun row_idx =>
              line <- border_line filler_col_count space ;;
              _ <- write_string row_idx frame_x_start line ;;
              Draw.ret tt) ;;
    _ <- Draw.store text_y_start frame_x_start bar ;;
    col_idx <- write_string text_y_start text_x_start final_script ;;
    padding <- make_string (SizeT.sub right_padding border_dim) space ;;
    line <- concat padding [bar] ;;
    _ <- write_string text_y_start col_idx line ;;
    _ <- for_rows_between (SizeT.add text_y_start 1) frame_y_end
           (fun row_idx =>
              line <- border_line filler_col_count space ;;
              _ <- write_string row_idx frame_x_start line ;;
              Draw.ret tt) ;;
    line <- border_line filler_col_count dash ;;
    _ <- write_string frame_y_end frame_x_start line ;;
    Draw.ret tt.

End Renderer.

(** The row lengths of a buffer, and the character at a position. *)
Definition shape (b : Draw.buffer_t) : list nat := map (@List.length _) b.

Definition cell (b : Draw.buffer_t) (row col : Z) : option Ascii.ascii :=
  match nth_error b (Z.to_nat row) with
  | Some r => nth_error r (Z.to_nat col)
  | None => None
  end.

(** ** What a draw operation may change *)

Section Confinement.

(** The positions a draw operation is allowed to write. *)
Variable P : Z -> Z -> Prop.

(** [b'] has the shape of [b] and differs from it at allowed positions
    only. *)
Definition changes_only (b b' : Draw.buffer_t) : Prop :=
  shape b' = shape b /\
  forall row col, 0 <= row -> 0 <= col -> ~ P row col ->
                  cell b' row col = cell b row col.

(** In every outcome that leaves a buffer, [m] has changed allowed
    positions only, and a value it returns satisfies [V]. *)
Definition confined {A : Type} (V : A -> Prop) (m : Draw.M A) : Prop :=
  forall b,
    match m b with
    | Draw.Done a b' => changes_only b b' /\ V a
    | Draw.Throws _ b' => changes_only b b'
    | Draw.Undefined => True
    end.

End Confinement.

(** Every position may be written. *)
Definition anywhere : Z -> Z -> Prop := fun _ _ => True.


(** The positions of the frame of a placement whose columns run from
    [xs] up to, not including, [xe] and whose rows run from [ys] to
    [ye]. *)
Definition in_frame (xs xe ys ye : Z) (row col : Z) : Prop :=
  ys <= row <= ye /\ xs <= col < xe.

(** On every buffer of shape [s], [m] ends normally with a buffer of
    shape [s]; its value satisfies [V] and the buffer satisfies [Q]. *)
Definition completes {A : Type} (s : list nat) (V : A -> Prop)
  (Q : Draw.buffer_t -> Prop) (m : Draw.M A) : Prop :=
  forall b,
    shape b = s ->
    exists a b', m b = Draw.Done a b' /\ shape b' = s /\ V a /\ Q b'.

(** Row [row] of a buffer of shape [s] has more than [col] columns. *)
Definition has_cell (s : list nat) (row col : Z) : Prop :=
  0 <= row /\ 0 <= col /\
  exists len, nth_error s (Z.to_nat row) = Some len /\ col < Z.of_nat len.

(** From column [col] on, row [row] of [b] reads [str]. *)
Definition reads (b : Draw.buffer_t) (row col : Z) (str : list Ascii.ascii)
  : Prop :=
  forall i, 0 <= i < Z.of_nat (List.length str) ->
            cell b row (col + i) = nth_error str (Z.to_nat i).

(** ** Order facts of binary32 *)

Section FloatOrder.

Lemma SFcompare_antisym (x y : float) :
  SFcompare y x = option_map CompOpp (SFcompare x y).
Proof.
  destruct x as [sx | sx | | sx mx ex], y as [sy | sy | | sy my ey];
    cbn [SFcompare option_map]; try reflexivity;
    try (destruct sx; reflexivity); try (destruct sy; reflexivity);
    try (destruct sx, sy; reflexivity).
  rewrite (Z.compare_antisym ex ey).
  change (Pos.compare_cont Eq my mx) with (Pos.compare my mx).
  change (Pos.compare_cont Eq mx my) with (Pos.compare mx my).
  rewrite (Pos.compare_antisym mx my).
  destruct sx, sy; try reflexivity;
    destruct (ex ?= ey); reflexivity.
Qed.

Lemma SFcompare_refl (x : float) :
  F32.is_nan x = false -> SFcompare x x = Some Eq.
Proof.
  destruct x as [s | s | | s m e]; cbn; intros H;
    try discriminate; try reflexivity.
  - destruct s; reflexivity.
  - rewrite Z.compare_refl.
    change (Pos.compare_cont Eq m m) with (Pos.compare m m).
    rewrite Pos.compare_refl. destruct s; reflexivity.
Qed.

Lemma SFcompare_total (x y : float) :
  F32.is_nan x = false -> F32.is_nan y = false ->
  exists c, SFcompare x y = Some c.
Proof.
  destruct x, y; cbn; intros Hx Hy; try discriminate; eauto.
Qed.

(** [x >= a] excludes [x < a]. *)
Lemma geb_not_ltb (x a : float) :
  (x >=? a)%f32 = true -> (x <? a)%f32 = false.
Proof.
  unfold F32.geb, F32.leb, F32.ltb, SFleb, SFltb.
  rewrite (SFcompare_antisym a x).
  destruct (SFcompare a x) as [[ | | ] | ]; cbn; congruence.
Qed.

(** [x == y] excludes [x > y]. *)
Lemma eqb_not_gtb (x y : float) :
  F32.eqb x y = true -> (x >? y)%f32 = false.
Proof.
  unfold F32.eqb, F32.gtb, F32.ltb, SFeqb, SFltb.
  rewrite (SFcompare_antisym x y).
  destruct (SFcompare x y) as [[ | | ] | ]; cbn; congruence.
Qed.

Lemma leb_refl (x : float) : F32.is_nan x = false -> (x <=? x)%f32 = true.
Proof.
  intros H. unfold F32.leb, SFleb. now rewrite SFcompare_refl.
Qed.

(** On numbers [std::min] selects one of its arguments, and one that is
    below both. *)
Lemma std_min_lower_bound (a b : float) :
  F32.is_nan a = false -> F32.is_nan b = false ->
  (F32.std_min a b = a \/ F32.std_min a b = b) /\
  (F32.std_min a b <=? a)%f32 = true /\
  (F32.std_min a b <=? b)%f32 = true.
Proof.
  intros Ha Hb. unfold F32.std_min, F32.ltb, SFltb.
  destruct (SFcompare_total b a Hb Ha) as [c Hc].
  pose proof (SFcompare_antisym b a) as Hanti. rewrite Hc in Hanti.
  rewrite Hc.
  destruct c; cbn in Hanti;
    (split; [ auto | split ]);
    try (apply leb_refl; assumption);
    unfold F32.leb, SFleb; rewrite ?Hc, ?Hanti; reflexivity.
Qed.

(** A NaN on the right is ignored, a NaN on the left is returned. *)
Lemma std_min_nan_r (a : float) : F32.std_min a S754_nan = a.
Proof. destruct a; reflexivity. Qed.

Lemma std_min_nan_l (b : float) : F32.std_min S754_nan b = S754_nan.
Proof. destruct b; reflexivity. Qed.

End FloatOrder.

(** ** The bound algebra *)

Section BoundAlgebra.

Import val.

(** C1: [resolve_axis] follows the four-case table.  Strict/strict gives
    the low value when the incoming value is under it and the high value
    otherwise; strict/lenient and lenient/lenient give the low value when
    the incoming value is under it and [min (high, incoming)] otherwise;
    lenient/strict always gives the high value. *)
Theorem resolve_axis_table (a b incoming : float) :
  resolve_axis (mkAxisDirection (def a) (def b)) incoming
    = (if (incoming <? a)%f32 then a else b) /\
  resolve_axis (mkAxisDirection (def a) (lnt b)) incoming
    = (if (incoming <? a)%f32 then a else F32.std_min b incoming) /\
  resolve_axis (mkAxisDirection (lnt a) (lnt b)) incoming
    = (if (incoming <? a)%f32 then a else F32.std_min b incoming) /\
  resolve_axis (mkAxisDirection (lnt a) (def b)) incoming = b.
Proof.
  unfold resolve_axis; cbn [low high].
  repeat split.
Qed.

(** C9: resolving a single lenient bound [v] against [x] gives
    [min (v, x)]; resolving a strict bound [v] gives [v] whatever the
    incoming value is. *)
Theorem resolve_direction_single (v x : float) :
  resolve_direction (lnt v) x = F32.std_min v x /\
  resolve_direction (def v) x = v.
Proof.
  split; reflexivity.
Qed.

(** C8: with two strict bounds, any two incoming values at or above the
    low value resolve to the same result. *)
Theorem resolve_axis_strict_strict_discards_incoming (a b x1 x2 : float) :
  (x1 >=? a)%f32 = true ->
  (x2 >=? a)%f32 = true ->
  resolve_axis (mkAxisDirection (def a) (def b)) x1
    = resolve_axis (mkAxisDirection (def a) (def b)) x2.
Proof.
  intros H1 H2.
  unfold resolve_axis; cbn [low high].
  now rewrite (geb_not_ltb x1 a H1), (geb_not_ltb x2 a H2).
Qed.

Lemma resolve_axis_strict_strict_discards_incoming_witness :
  (F32.of_Z 30 >=? F32.of_Z 10)%f32 = true /\
  (F32.of_Z 700 >=? F32.of_Z 10)%f32 = true /\
  resolve_axis (mkAxisDirection (def (F32.of_Z 10)) (def (F32.of_Z 50)))
               (F32.of_Z 30)
    = resolve_axis (mkAxisDirection (def (F32.of_Z 10)) (def (F32.of_Z 50)))
                   (F32.of_Z 700).
Proof.
  split; [ reflexivity | split; [ reflexivity | ] ].
  apply (resolve_axis_strict_strict_discards_incoming
           (F32.of_Z 10) (F32.of_Z 50) (F32.of_Z 30) (F32.of_Z 700));
    reflexivity.
Defined.

(** C10: under a lenient low bound [a], an incoming value at or above [a]
    makes [resolve_axis] agree with [resolve_direction] on the high
    bound, strict or lenient. *)
Theorem resolve_axis_lenient_low_is_resolve_direction
  (a x : float) (b : Direction) :
  (x >=? a)%f32 = true ->
  resolve_axis (mkAxisDirection (lnt a) b) x = resolve_direction b x.
Proof.
  intros H.
  unfold resolve_axis, resolve_direction; cbn [low high].
  destruct b as [upper | upper]; [ reflexivity | ].
  now rewrite (geb_not_ltb x a H).
Qed.

Lemma resolve_axis_lenient_low_is_resolve_direction_witness :
  (F32.of_Z 30 >=? F32.of_Z 10)%f32 = true /\
  resolve_axis (mkAxisDirection (lnt (F32.of_Z 10)) (lnt (F32.of_Z 20)))
               (F32.of_Z 30)
    = resolve_direction (lnt (F32.of_Z 20)) (F32.of_Z 30).
Proof.
  split; [ reflexivity | ].
  apply (resolve_axis_lenient_low_is_resolve_direction
           (F32.of_Z 10) (F32.of_Z 30) (lnt (F32.of_Z 20))).
  reflexivity.
Defined.

End BoundAlgebra.

(** ** The director policies *)

Section Directors.

Import val.
Import dir.
Import dir.stack.

(** C4: the instruction of the horizontal stacker pins the left edge at
    [x_offset + horizontal_margin], lets the right edge reach
    [stage.right], pins the top edge at [stage.top] and lets the bottom
    edge reach [stage.bottom]. *)
Theorem horizontal_next_ranges (stage : Stage) (cursor : StageLayout) :
  horizontal_next stage cursor =
  {| horizontal :=
       {| low := def (x_offset cursor + horizontal_margin cursor)%f32;
          high := lnt (right stage) |};
     vertical :=
       {| low := def (top stage); high := lnt (bottom stage) |} |}.
Proof.
  reflexivity.
Qed.

(** C3: the horizontal stacker adds
    [(right - left) + 1 + horizontal_margin] of the placement to
    [x_offset] and [left + right] to [x_size]; the vertical stacker adds
    [(bottom - top) + 1 + vertical_margin] to [y_offset] and
    [top + bottom + 1] to [y_size]; each leaves the other four fields of
    the cursor as they were. *)
Theorem stack_adjust_updates
  (stage : Stage) (placement : performance) (cursor : StageLayout) :
  let h := horizontal_adjust stage placement cursor in
  let v := vertical_adjust stage placement cursor in
  (x_offset h
     = (x_offset cursor
        + ((right placement - left placement) + F32.of_Z 1
           + horizontal_margin cursor))%f32 /\
   x_size h = (x_size cursor + (left placement + right placement))%f32 /\
   y_offset h = y_offset cursor /\
   y_size h = y_size cursor /\
   horizontal_margin h = horizontal_margin cursor /\
   vertical_margin h = vertical_margin cursor) /\
  (y_offset v
     = (y_offset cursor
        + ((bottom placement - top placement) + F32.of_Z 1
           + vertical_margin cursor))%f32 /\
   y_size v
     = (y_size cursor + (top placement + bottom placement + F32.of_Z 1))%f32 /\
   x_offset v = x_offset cursor /\
   x_size v = x_size cursor /\
   horizontal_margin v = horizontal_margin cursor /\
   vertical_margin v = vertical_margin cursor).
Proof.
  cbv zeta. unfold horizontal_adjust, vertical_adjust.
  cbn [x_offset y_offset x_size y_size horizontal_margin vertical_margin].
  repeat split.
Qed.

(** C5: the adaptive director answers as the horizontal stacker when
    [right - left > bottom - top] holds for the stage and as the vertical
    stacker otherwise; equal width and height select the vertical one. *)
Theorem magically_delegates
  (stage : Stage) (placement : performance) (cursor : StageLayout) :
  let w := (right stage - left stage)%f32 in
  let h := (bottom stage - top stage)%f32 in
  magically_next stage cursor
    = (if (w >? h)%f32 then horizontal_next stage cursor
       else vertical_next stage cursor) /\
  magically_adjust stage placement cursor
    = (if (w >? h)%f32 then horizontal_adjust stage placement cursor
       else vertical_adjust stage placement cursor) /\
  (if F32.eqb w h
   then magically_next stage cursor = vertical_next stage cursor /\
        magically_adjust stage placement cursor
          = vertical_adjust stage placement cursor
   else True).
Proof.
  cbv zeta. unfold magically_next, magically_adjust, aspect.
  destruct (F32.eqb _ _) eqn:Heq.
  - rewrite (eqb_not_gtb _ _ Heq). repeat split.
  - destruct (_ >? _)%f32; repeat split.
Qed.

End Directors.

(** ** Scenario 1: two buttons on a 200 by 40 stage *)

Section Scenario1.

Import val.
Import dir.
Import dir.stack.

(** C2, as claimed, fails: after the 40-wide placement the second
    instruction's horizontal range is not [Strict 41, Lenient 159]; its
    high bound is still the stage's right edge, 200. *)
Lemma scenario1_second_next_is_not_159 :
  (right scenario1_placement - left scenario1_placement)%f32 = F32.of_Z 40 /\
  horizontal
    (horizontal_next scenario1_stage
       (horizontal_adjust scenario1_stage scenario1_placement
                          scenario1_cursor))
  <> mkAxisDirection (Strict (F32.of_Z 41)) (Lenient (F32.of_Z 159)) /\
  high (horizontal
    (horizontal_next scenario1_stage
       (horizontal_adjust scenario1_stage scenario1_placement
                          scenario1_cursor)))
  = Lenient (F32.of_Z 200).
Proof.
  split; [ reflexivity | split; [ | reflexivity ] ].
  vm_compute. intros H. discriminate H.
Qed.

(** C2, amended: the first instruction's horizontal range is
    [Strict 0, Lenient 200]; after any placement that is 40 wide the
    cursor's [x_offset] is 41, and the second instruction's horizontal
    range is [Strict 41, Lenient 200]: the high bound is the absolute
    right edge of the stage. *)
Theorem scenario1_absolute_right_edge (placement : performance) :
  (right placement - left placement)%f32 = F32.of_Z 40 ->
  let cursor := horizontal_adjust scenario1_stage placement scenario1_cursor in
  horizontal (horizontal_next scenario1_stage scenario1_cursor)
    = mkAxisDirection (Strict (F32.of_Z 0)) (Lenient (F32.of_Z 200)) /\
  x_offset cursor = F32.of_Z 41 /\
  horizontal (horizontal_next scenario1_stage cursor)
    = mkAxisDirection (Strict (F32.of_Z 41)) (Lenient (F32.of_Z 200)).
Proof.
  intros Hwidth. cbv zeta.
  unfold horizontal_next, horizontal_adjust.
  cbn [horizontal x_offset horizontal_margin scenario1_cursor].
  rewrite Hwidth.
  repeat split.
Qed.

Lemma scenario1_absolute_right_edge_witness :
  (right scenario1_placement - left scenario1_placement)%f32 = F32.of_Z 40 /\
  x_offset (horizontal_adjust scenario1_stage scenario1_placement
                              scenario1_cursor) = F32.of_Z 41.
Proof.
  split; [ reflexivity | ].
  apply (scenario1_absolute_right_edge scenario1_placement).
  reflexivity.
Defined.

End Scenario1.

(** ** The negotiation loop *)

Section Negotiation.

Import val.

Lemma back_push_back {A : Type} (q : list A) (x : A) :
  back (push_back q x) = Some x.
Proof.
  unfold push_back.
  induction q as [ | y q IH ]; [ reflexivity | ].
  cbn [app back]. rewrite IH.
  destruct (q ++ [x]) eqn:E; [ | reflexivity ].
  destruct q; discriminate E.
Qed.

Lemma back_In {A : Type} (q : list A) (x : A) : back q = Some x -> In x q.
Proof.
  induction q as [ | y q IH ]; [ discriminate | ].
  destruct q as [ | z q ].
  - intros [= ->]. now left.
  - intros H. right. now apply IH.
Qed.

(** What holds of the captured state before [std::for_each] and is kept
    by every call of the body holds of the state it ends in. *)
Lemma for_each_invariant {A S : Type} (P : S -> Prop)
  (body : S -> A -> option S) :
  (forall s x s', P s -> body s x = Some s' -> P s') ->
  forall l s s', P s -> for_each l body s = Some s' -> P s'.
Proof.
  intros Hstep l.
  induction l as [ | x l IH ]; intros s s' Hs; cbn [for_each].
  - now intros [= <-].
  - destruct (body s x) as [ s1 | ] eqn:Hbody; [ | discriminate ].
    apply IH. exact (Hstep s x s1 Hs Hbody).
Qed.

Lemma act_scene_frame (set : Set_) (script : string) :
  same_frame set (fst (act_scene set script)).
Proof.
  unfold same_frame, act_scene. cbn [fst stage crew director actor].
  repeat split.
Qed.

Lemma act_scene_steps (set : Set_) (script : string) :
  let instruction :=
    instruct (director (crew set)) (stage set) (stage_layout set) in
  let result := perfom (actor (crew set)) instruction script in
  snd (act_scene set script) = result /\
  stage_layout (fst (act_scene set script))
    = adjust (director (crew set)) (stage set) (fst result) (stage_layout set).
Proof.
  split; reflexivity.
Qed.

Lemma same_frame_trans (a b c : Set_) :
  same_frame a b -> same_frame b c -> same_frame a c.
Proof.
  unfold same_frame. intros (H1 & H2 & H3) (H4 & H5 & H6).
  repeat split; congruence.
Qed.

(** One call of the loop body never fails when the queue ends in a set,
    appends one set and one result, and leaves what was there. *)
Lemma scenes_body_push (q : list Set_) (set : Set_)
  (into : TPerformanceBuffer) (script : string) :
  scenes_body (push_back q set, into) script
  = Some (push_back (push_back q set) (fst (act_scene set script)),
          push_back into (snd (act_scene set script))).
Proof.
  unfold scenes_body. rewrite back_push_back. reflexivity.
Qed.

(** The loop of [produce_scenes] started on a queue ending in [set]:
    it finishes, its results are those of [run] appended to [into], and
    the queue ends in a set of the same frame holding the last cursor of
    [run]. *)
Lemma for_each_scenes_run (scripts : list string) :
  forall (q : list Set_) (set : Set_) (into : TPerformanceBuffer),
  exists (q' : list Set_) (last : Set_),
    for_each scripts scenes_body (push_back q set, into)
    = Some (push_back q' last,
            into ++ fst (run (stage set) (stage_layout set)
                             (director (crew set)) (actor (crew set))
                             scripts)) /\
    same_frame set last /\
    stage_layout last
    = snd (run (stage set) (stage_layout set)
               (director (crew set)) (actor (crew set)) scripts).
Proof.
  induction scripts as [ | script scripts IH ]; intros q set into.
  - exists q, set. cbn [for_each run fst snd]. rewrite app_nil_r.
    repeat split.
  - cbn [for_each]. rewrite scenes_body_push. cbv beta iota.
    destruct (IH (push_back q set) (fst (act_scene set script))
                 (push_back into (snd (act_scene set script))))
      as (q' & last & Hrun & Hframe & Hcursor).
    exists q', last.
    destruct (act_scene_frame set script) as (Hs & Hd & Ha).
    destruct (act_scene_steps set script) as (Hres & Hlay).
    cbv zeta in Hres, Hlay.
    rewrite Hs, Hd, Ha, Hlay in Hcursor.
    split; [ refine (eq_trans Hrun _) | split; [ | exact Hcursor ] ].
    { rewrite Hs, Hd, Ha, Hlay, Hres. cbn [run fst snd].
      unfold push_back at 2. rewrite <- app_assoc. reflexivity. }
    apply (same_frame_trans set (fst (act_scene set script)) last);
      [ apply act_scene_frame | exact Hframe ].
Qed.

(** The results of [run] have one entry per item; entry [i] is what the
    performer returns for item [i] under the instruction computed from
    the cursor that [run] reaches on the first [i] items. *)
Lemma run_length stage director performer (items : list string) :
  forall cursor,
    List.length (fst (run stage cursor director performer items))
    = List.length items.
Proof.
  induction items as [ | item items IH ]; intros cursor;
    cbn [run fst List.length].
  - reflexivity.
  - now rewrite IH.
Qed.

Lemma run_nth_error stage director performer (items : list string) :
  forall cursor i,
    nth_error (fst (run stage cursor director performer items)) i
    = option_map
        (fun item =>
           perfom performer
             (instruct director stage
                (snd (run stage cursor director performer (firstn i items))))
             item)
        (nth_error items i).
Proof.
  induction items as [ | item items IH ]; intros cursor i.
  - destruct i; reflexivity.
  - destruct i as [ | i ].
    + reflexivity.
    + cbn [run fst snd nth_error firstn]. apply IH.
Qed.

Lemma same_frame_refl (set : Set_) : same_frame set set.
Proof. repeat split. Qed.

(** The body of the loop keeps every set of the queue in the frame of the
    first one. *)
Lemma scenes_body_keeps_frame (initial : Set_)
  (st : list Set_ * TPerformanceBuffer) (script : string)
  (st' : list Set_ * TPerformanceBuffer) :
  Forall (same_frame initial) (fst st) ->
  scenes_body st script = Some st' ->
  Forall (same_frame initial) (fst st').
Proof.
  destruct st as [q into]. unfold scenes_body. cbn [fst].
  intros Hall.
  destruct (back q) as [ set | ] eqn:Hback; [ | discriminate ].
  intros [= <-]. cbn [fst]. unfold push_back.
  apply Forall_app. split; [ exact Hall | ].
  constructor; [ | constructor ].
  apply (same_frame_trans initial set).
  - rewrite Forall_forall in Hall. apply Hall. now apply back_In.
  - apply act_scene_frame.
Qed.

(** C7: a step hands back the stage, the director and the performer it
    was given and replaces only the cursor, by the one the director's
    [adjust] computes; so every set that a run of the loop puts in its
    queue has the stage, director and performer of the initial set. *)
Theorem act_scene_changes_only_cursor
  (set : Set_) (script : string)
  (into : TPerformanceBuffer) (scripts : list string) :
  (let next := fst (act_scene set script) in
   stage next = stage set /\
   director (crew next) = director (crew set) /\
   actor (crew next) = actor (crew set) /\
   stage_layout next
   = adjust (director (crew set)) (stage set)
       (fst (perfom (actor (crew set))
               (instruct (director (crew set)) (stage set)
                         (stage_layout set))
               script))
       (stage_layout set)) /\
  (exists (set_queue : list Set_) (buffer : TPerformanceBuffer),
      produce_scenes_queue set into scripts = Some (set_queue, buffer) /\
      Forall (fun s => stage s = stage set /\
                       director (crew s) = director (crew set) /\
                       actor (crew s) = actor (crew set))
             set_queue).
Proof.
  split.
  - cbv zeta. repeat split.
  - destruct (for_each_scenes_run scripts [] set into)
      as (q' & last & Hrun & _ & _).
    exists (push_back q' last). eexists.
    split; [ exact Hrun | ].
    change (Forall (same_frame set)
                   (fst (push_back q' last,
                         into ++ fst (run (stage set) (stage_layout set)
                                          (director (crew set))
                                          (actor (crew set)) scripts)))).
    apply (for_each_invariant
             (fun st => Forall (same_frame set) (fst st))
             scenes_body
             (scenes_body_keeps_frame set)
             scripts (push_back [] set, into)).
    + cbn. constructor; [ apply same_frame_refl | constructor ].
    + exact Hrun.
Qed.

(** C6: [produce_scenes] always finishes and appends to [into] exactly
    the results of the left-to-right fold of next, resolve and advance:
    one result per script, in the order of the scripts, the result at
    position [i] being the performance of script [i] under the
    instruction for the cursor reached by advancing over the scripts
    before it; the queue ends with the cursor the fold ends with. *)
Theorem produce_scenes_is_fold
  (initial_set : Set_) (into : TPerformanceBuffer) (scripts : list string) :
  let st := stage initial_set in
  let cursor := stage_layout initial_set in
  let d := director (crew initial_set) in
  let p := actor (crew initial_set) in
  let out := fst (run st cursor d p scripts) in
  produce_scenes initial_set into scripts = Some (into ++ out) /\
  List.length out = List.length scripts /\
  (forall i : nat,
      nth_error out i
      = option_map
          (fun item =>
             perfom p
               (instruct d st
                  (snd (run st cursor d p (firstn i scripts))))
               item)
          (nth_error scripts i)) /\
  (exists set_queue : list Set_,
      option_map fst (produce_scenes_queue initial_set into scripts)
      = Some set_queue /\
      option_map stage_layout (back set_queue)
      = Some (snd (run st cursor d p scripts))).
Proof.
  cbv zeta.
  destruct (for_each_scenes_run scripts [] initial_set into)
    as (q' & last & Hrun & _ & Hcursor).
  split; [ | split; [ | split ] ].
  - unfold produce_scenes, produce_scenes_queue.
    change [initial_set] with (push_back [] initial_set).
    now rewrite Hrun.
  - apply run_length.
  - intros i. apply run_nth_error.
  - exists (push_back q' last).
    unfold produce_scenes_queue.
    change [initial_set] with (push_back [] initial_set).
    rewrite Hrun. cbn [option_map fst].
    split; [ reflexivity | ].
    rewrite back_push_back. cbn [option_map]. now rewrite Hcursor.
Qed.

End Negotiation.

(** ** The scenarios of the specification, evaluated *)

Section Scenarios.

Import val.

Example scenario2_aspect :
  aspect (mkStage (F32.of_Z 0) (F32.of_Z 60) (F32.of_Z 0) (F32.of_Z 20))
  = Aspect.horizontal.
Proof. reflexivity. Qed.

Example scenario3_aspect :
  aspect (mkStage (F32.of_Z 0) (F32.of_Z 20) (F32.of_Z 0) (F32.of_Z 60))
  = Aspect.vertical.
Proof. reflexivity. Qed.

Example square_stage_aspect :
  aspect (mkStage (F32.of_Z 5) (F32.of_Z 25) (F32.of_Z 0) (F32.of_Z 20))
  = Aspect.vertical.
Proof. reflexivity. Qed.

Example scenario4_below_floor :
  resolve_axis
    (mkAxisDirection (dir.Strict (F32.of_Z 10)) (dir.Strict (F32.of_Z 50)))
    (F32.of_Z 5)
  = F32.of_Z 10.
Proof. reflexivity. Qed.

Example scenario4_above_floor :
  resolve_axis
    (mkAxisDirection (dir.Strict (F32.of_Z 10)) (dir.Strict (F32.of_Z 50)))
    (F32.of_Z 30)
  = F32.of_Z 50.
Proof. reflexivity. Qed.

Example scenario5_three_items :
  option_map
    (fun st => (option_map (fun set => x_offset (stage_layout set))
                           (back (fst st)),
                map (fun pre => right (fst pre)) (snd st)))
    (produce_scenes_queue scenario5_set []
       ["First"; "Second button"; "Third interaction"]%string)
  = Some (Some (F32.of_Z 33), [F32.of_Z 10; F32.of_Z 21; F32.of_Z 32]).
Proof. vm_compute. reflexivity. Qed.

Example std_min_of_zeros :
  F32.std_min (F32.of_Z 0) (SFopp (F32.of_Z 0)) = F32.of_Z 0 /\
  F32.std_min (SFopp (F32.of_Z 0)) (F32.of_Z 0) = SFopp (F32.of_Z 0).
Proof. split; reflexivity. Qed.

End Scenarios.

(** ** Further order facts of binary32 *)

Section FloatOrderMore.

Lemma ltb_leb (x y : float) : (x <? y)%f32 = true -> (x <=? y)%f32 = true.
Proof.
  unfold F32.ltb, F32.leb, SFltb, SFleb.
  destruct (SFcompare x y) as [[ | | ] | ]; congruence.
Qed.

Lemma ltb_asym (x y : float) : (x <? y)%f32 = true -> (y <? x)%f32 = false.
Proof.
  unfold F32.ltb, SFltb. rewrite (SFcompare_antisym x y).
  destruct (SFcompare x y) as [[ | | ] | ]; cbn; congruence.
Qed.

Lemma leb_not_nan (x y : float) :
  (x <=? y)%f32 = true -> F32.is_nan x = false /\ F32.is_nan y = false.
Proof.
  unfold F32.leb, SFleb.
  destruct x, y; cbn; intros H; try discriminate H; split; reflexivity.
Qed.

(** On numbers, what is not below is at or above. *)
Lemma not_ltb_leb (x y : float) :
  F32.is_nan x = false -> F32.is_nan y = false ->
  (x <? y)%f32 = false -> (y <=? x)%f32 = true.
Proof.
  intros Hx Hy. unfold F32.ltb, F32.leb, SFltb, SFleb.
  rewrite (SFcompare_antisym x y).
  destruct (SFcompare_total x y Hx Hy) as [c ->].
  destruct c; cbn; congruence.
Qed.

(** [std::min] never exceeds its first argument, whatever the second
    is. *)
Lemma std_min_leb_l (a b : float) :
  F32.is_nan a = false -> (F32.std_min a b <=? a)%f32 = true.
Proof.
  intros Ha. unfold F32.std_min.
  destruct (b <? a)%f32 eqn:Hlt.
  - now apply ltb_leb.
  - now apply leb_refl.
Qed.

End FloatOrderMore.

(** ** More on the bound algebra *)

Section BoundAlgebraMore.

Import val.

(** X1: a single bound is a ceiling: whatever comes in, even a NaN, the
    result of [resolve_direction] is at or below the value of the bound. *)
Theorem resolve_direction_within_bound (d : Direction) (x : float) :
  F32.is_nan (extract d) = false ->
  (resolve_direction d x <=? extract d)%f32 = true.
Proof.
  destruct d as [v | v]; cbn [extract resolve_direction]; intros Hv.
  - now apply leb_refl.
  - now apply std_min_leb_l.
Qed.

Lemma resolve_direction_within_bound_witness :
  F32.is_nan (extract (lnt (F32.of_Z 200))) = false /\
  (resolve_direction (lnt (F32.of_Z 200)) (F32.of_Z 7) <=?
   extract (lnt (F32.of_Z 200)))%f32 = true.
Proof.
  split; [ reflexivity | ].
  apply (resolve_direction_within_bound (lnt (F32.of_Z 200)) (F32.of_Z 7)).
  reflexivity.
Defined.

(** X2: [resolve_axis] never makes up a number: its result is the value
    of the low bound, the value of the high bound, or the incoming
    value. *)
Theorem resolve_axis_selects (r : AxisDirection) (x : float) :
  resolve_axis r x = extract (low r) \/
  resolve_axis r x = extract (high r) \/
  resolve_axis r x = x.
Proof.
  unfold resolve_axis, F32.std_min.
  destruct (low r) as [lo | lo], (high r) as [hi | hi]; cbn [extract];
    try destruct (x <? lo)%f32; try destruct (x <? hi)%f32; auto.
Qed.

(** X3: on a range whose low value is at or below its high value, and
    for an incoming number, the result of [resolve_axis] lies between
    the two values, for all four combinations of kinds. *)
Theorem resolve_axis_clamps (r : AxisDirection) (x : float) :
  (extract (low r) <=? extract (high r))%f32 = true ->
  F32.is_nan x = false ->
  (extract (low r) <=? resolve_axis r x)%f32 = true /\
  (resolve_axis r x <=? extract (high r))%f32 = true.
Proof.
  intros Hle Hx.
  destruct (leb_not_nan _ _ Hle) as [Hlo Hhi].
  unfold resolve_axis, F32.std_min.
  destruct (low r) as [lo | lo], (high r) as [hi | hi];
    cbn [extract] in *;
    try (destruct (x <? lo)%f32 eqn:Hxlo);
    try (destruct (x <? hi)%f32 eqn:Hxhi);
    split;
    first [ assumption
          | apply leb_refl; assumption
          | apply ltb_leb; assumption
          | apply not_ltb_leb; assumption ].
Qed.

Lemma resolve_axis_clamps_witness :
  let r := mkAxisDirection (def (F32.of_Z 10)) (lnt (F32.of_Z 50)) in
  (extract (low r) <=? extract (high r))%f32 = true /\
  F32.is_nan (F32.of_Z 70) = false /\
  (resolve_axis r (F32.of_Z 70) <=? extract (high r))%f32 = true.
Proof.
  cbv zeta.
  split; [ reflexivity | split; [ reflexivity | ] ].
  apply (resolve_axis_clamps
           (mkAxisDirection (def (F32.of_Z 10)) (lnt (F32.of_Z 50)))
           (F32.of_Z 70)); reflexivity.
Defined.

(** X4: a stage and the stage with its axes exchanged are never both
    horizontal. *)
Theorem aspect_transpose (s : Stage) :
  aspect s = Aspect.horizontal -> aspect (transpose s) = Aspect.vertical.
Proof.
  unfold aspect, transpose, F32.gtb. cbn [left right top bottom].
  destruct (bottom s - top s <? right s - left s)%f32 eqn:H;
    [ | discriminate ].
  intros _. now rewrite (ltb_asym _ _ H).
Qed.

Lemma aspect_transpose_witness :
  let s := mkStage (F32.of_Z 0) (F32.of_Z 60) (F32.of_Z 0) (F32.of_Z 20) in
  aspect s = Aspect.horizontal /\ aspect (transpose s) = Aspect.vertical.
Proof.
  cbv zeta. split; [ reflexivity | ].
  apply (aspect_transpose
           (mkStage (F32.of_Z 0) (F32.of_Z 60) (F32.of_Z 0) (F32.of_Z 20))).
  reflexivity.
Defined.

End BoundAlgebraMore.

(** ** The integer helpers and the screen *)

Section Helpers.

Lemma wrap_small (z : Z) : SizeT.in_range z -> SizeT.wrap z = z.
Proof.
  unfold SizeT.in_range, SizeT.wrap. intros H. now apply Z.mod_small.
Qed.

Lemma wrap_in_range (z : Z) : SizeT.in_range (SizeT.wrap z).
Proof.
  unfold SizeT.in_range, SizeT.wrap, SizeT.modulus.
  apply Z.mod_pos_bound. reflexivity.
Qed.

Lemma add_in_range (x y : Z) : SizeT.in_range (SizeT.add x y).
Proof. apply wrap_in_range. Qed.

Lemma sub_in_range (x y : Z) : SizeT.in_range (SizeT.sub x y).
Proof. apply wrap_in_range. Qed.

Lemma in_range_nonneg (x : Z) : SizeT.in_range x -> 0 <= x.
Proof. now intros [H _]. Qed.

Lemma pow2_in_range (k : Z) :
  0 <= k < 64 -> 0 < 2 ^ k /\ 2 ^ k * 2 ^ (64 - k) = SizeT.modulus /\
                 2 ^ k <= 2 ^ 63.
Proof.
  intros Hk. unfold SizeT.modulus.
  split; [ apply Z.pow_pos_nonneg; lia | split ].
  - rewrite <- Z.pow_add_r by lia. f_equal. lia.
  - apply Z.pow_le_mono_r; lia.
Qed.

(** Masking a [size_t] with [~(2^k - 1)] clears its [k] low bits. *)
Lemma land_lnot_ones (a k : Z) :
  0 <= k < 64 -> SizeT.in_range a ->
  SizeT.land a (SizeT.lnot (2 ^ k - 1)) = 2 ^ k * (a / 2 ^ k).
Proof.
  intros Hk Ha. unfold SizeT.land, SizeT.lnot, SizeT.wrap, SizeT.modulus.
  replace (2 ^ k - 1) with (Z.ones k) by (rewrite Z.ones_equiv; lia).
  rewrite <- (Z.land_ones (Z.lnot (Z.ones k)) 64) by lia.
  rewrite (Z.land_comm (Z.lnot (Z.ones k))), Z.land_assoc.
  rewrite (Z.land_ones a 64) by lia.
  rewrite (Z.mod_small a) by exact Ha.
  rewrite <- Z.ldiff_land, Z.ldiff_ones_r by lia.
  rewrite Z.shiftr_div_pow2, Z.shiftl_mul_pow2 by lia.
  apply Z.mul_comm.
Qed.

Lemma round_downwards_unfold (number k : Z) :
  0 <= k < 64 ->
  round_downwards number (2 ^ k)
  = 2 ^ k * (SizeT.wrap (number - (2 ^ k - 1)) / 2 ^ k).
Proof.
  intros Hk. destruct (pow2_in_range k Hk) as (Hpos & _ & Hle).
  unfold round_downwards, SizeT.sub.
  rewrite (wrap_small (2 ^ k - 1))
    by (unfold SizeT.in_range, SizeT.modulus; lia).
  apply land_lnot_ones; [ exact Hk | apply wrap_in_range ].
Qed.



(** X6: below [pow2 - 1] the subtraction wraps around, and the result is
    [2^64 - pow2] whatever the number. *)
Theorem round_downwards_underflow (number k : Z) :
  0 <= k < 64 ->
  0 <= number < 2 ^ k - 1 ->
  round_downwards number (2 ^ k) = SizeT.modulus - 2 ^ k.
Proof.
  intros Hk Hn.
  destruct (pow2_in_range k Hk) as (Hpos & Hmod & Hle).
  rewrite (round_downwards_unfold number k Hk).
  unfold SizeT.wrap.
  set (p := 2 ^ k) in *. set (q := 2 ^ (64 - k)) in *.
  assert (Hw : (number - (p - 1)) mod SizeT.modulus
               = number - (p - 1) + SizeT.modulus).
  { symmetry. apply (Z.mod_unique _ _ (-1)); unfold SizeT.modulus in *; lia. }
  rewrite Hw.
  assert (Hd : (number - (p - 1) + SizeT.modulus) / p = q - 1).
  { symmetry. apply (Z.div_unique _ _ _ (number + 1)); lia. }
  rewrite Hd. lia.
Qed.

Lemma round_downwards_underflow_witness :
  0 <= 1 < 64 /\ 0 <= 0 < 2 ^ 1 - 1 /\
  round_downwards_default 0 = SizeT.modulus - 2.
Proof.
  split; [ lia | split; [ simpl; lia | ] ].
  apply (round_downwards_underflow 0 1); simpl; lia.
Defined.

(** [split_value] in closed form: the half rounded down, and the rest. *)
Lemma split_value_closed (number : Z) :
  SizeT.in_range number ->
  split_value number = (number / 2, number - number / 2).
Proof.
  unfold SizeT.in_range, SizeT.modulus. intros Hn.
  unfold split_value, SizeT.rem, SizeT.div, SizeT.add, SizeT.wrap,
    SizeT.modulus.
  pose proof (Z.div_mod number 2 ltac:(lia)) as Hdm.
  pose proof (Z.mod_pos_bound number 2 ltac:(lia)) as Hb.
  destruct (number mod 2 =? 0) eqn:He.
  - apply Z.eqb_eq in He. f_equal. lia.
  - apply Z.eqb_neq in He. f_equal. rewrite Z.mod_small by lia. lia.
Qed.

Lemma split_value_bounds (number : Z) :
  SizeT.in_range number ->
  fst (split_value number) + snd (split_value number) = number /\
  (snd (split_value number) = fst (split_value number) \/
   snd (split_value number) = fst (split_value number) + 1) /\
  SizeT.in_range (fst (split_value number)) /\
  SizeT.in_range (snd (split_value number)).
Proof.
  intros Hn. rewrite (split_value_closed number Hn). cbn [fst snd].
  unfold SizeT.in_range, SizeT.modulus in *.
  pose proof (Z.div_mod number 2 ltac:(lia)) as Hdm.
  pose proof (Z.mod_pos_bound number 2 ltac:(lia)) as Hb.
  lia.
Qed.

(** X7: the two parts of [split_value] add up to the number, the second
    is the first or one more, and nothing wraps. *)
Theorem split_value_halves (number : Z) :
  SizeT.in_range number ->
  let halves := split_value number in
  fst halves + snd halves = number /\
  (snd halves = fst halves \/ snd halves = fst halves + 1) /\
  SizeT.in_range (fst halves) /\ SizeT.in_range (snd halves).
Proof.
  unfold SizeT.in_range, SizeT.modulus. intros Hn. cbv zeta.
  unfold split_value, SizeT.rem, SizeT.div, SizeT.add, SizeT.wrap,
    SizeT.modulus.
  pose proof (Z.div_mod number 2 ltac:(lia)) as Hdm.
  pose proof (Z.mod_pos_bound number 2 ltac:(lia)) as Hb.
  destruct (number mod 2 =? 0) eqn:He; cbn [fst snd].
  - apply Z.eqb_eq in He. lia.
  - apply Z.eqb_neq in He.
    rewrite Z.mod_small by lia. lia.
Qed.

Lemma split_value_halves_witness :
  SizeT.in_range 7 /\ fst (split_value 7) + snd (split_value 7) = 7.
Proof.
  split; [ unfold SizeT.in_range, SizeT.modulus; lia | ].
  apply (split_value_halves 7).
  unfold SizeT.in_range, SizeT.modulus; lia.
Defined.


End Helpers.

(** ** More on the directors *)

Section DirectorsMore.

Import val.
Import dir.
Import dir.stack.

(** X9: whatever the cursor, each of the three stack directors pins both
    low edges strictly and offers the right and the bottom edge of the
    stage as lenient high bounds. *)
Theorem stack_directors_instruct
  (d : Director) (stage : Stage) (cursor : StageLayout) :
  stack_director d ->
  exists a c : float,
    instruct d stage cursor
    = {| horizontal := {| low := def a; high := lnt (right stage) |};
         vertical := {| low := def c; high := lnt (bottom stage) |} |}.
Proof.
  intros [-> | [-> | ->]]; cbn [instruct horizontally vertically magically].
  - eexists _, _. reflexivity.
  - eexists _, _. reflexivity.
  - unfold magically_next. destruct (aspect stage); eexists _, _; reflexivity.
Qed.

Lemma stack_directors_instruct_witness :
  stack_director magically /\
  exists a c : float,
    instruct magically scenario1_stage scenario1_cursor
    = {| horizontal :=
           {| low := def a; high := lnt (right scenario1_stage) |};
         vertical :=
           {| low := def c; high := lnt (bottom scenario1_stage) |} |}.
Proof.
  split; [ right; right; reflexivity | ].
  apply (stack_directors_instruct magically scenario1_stage scenario1_cursor).
  right; right; reflexivity.
Defined.

(** X10: the two stackers work on separate fields: adjusting
    horizontally then vertically gives the cursor that adjusting
    vertically then horizontally gives, for any stages and placements. *)
Theorem stack_adjust_commute
  (s1 s2 : Stage) (p1 p2 : performance) (cursor : StageLayout) :
  horizontal_adjust s1 p1 (vertical_adjust s2 p2 cursor)
  = vertical_adjust s2 p2 (horizontal_adjust s1 p1 cursor).
Proof.
  reflexivity.
Qed.

Lemma stack_adjust_keeps_margins
  (d : Director) (stage : Stage) (perf : performance) (c : StageLayout) :
  stack_director d ->
  horizontal_margin (adjust d stage perf c) = horizontal_margin c /\
  vertical_margin (adjust d stage perf c) = vertical_margin c.
Proof.
  intros [-> | [-> | ->]]; cbn [adjust horizontally vertically magically];
    try (split; reflexivity).
  unfold magically_adjust. destruct (aspect stage); split; reflexivity.
Qed.

End DirectorsMore.

(** ** More on the loop *)

Section NegotiationMore.

Import val.

Lemma run_app stage director performer (s1 s2 : list string) :
  forall cursor,
    run stage cursor director performer (s1 ++ s2)
    = (fst (run stage cursor director performer s1)
       ++ fst (run stage (snd (run stage cursor director performer s1))
                   director performer s2),
       snd (run stage (snd (run stage cursor director performer s1))
                director performer s2)).
Proof.
  induction s1 as [ | script s1 IH ]; intros cursor.
  - cbn [app run fst snd]. now destruct (run _ _ _ _ s2).
  - cbn [app run fst snd]. now rewrite IH.
Qed.

Lemma for_each_scenes_history (scripts : list string) :
  forall (q : list Set_) (set : Set_) (into : TPerformanceBuffer),
  exists buffer : TPerformanceBuffer,
    for_each scripts scenes_body (push_back q set, into)
    = Some (push_back q set ++ set_history set scripts, buffer).
Proof.
  induction scripts as [ | script scripts IH ]; intros q set into.
  - exists into. cbn [for_each set_history]. now rewrite app_nil_r.
  - cbn [for_each]. rewrite scenes_body_push. cbv beta iota.
    destruct (IH (push_back q set) (fst (act_scene set script))
                 (push_back into (snd (act_scene set script))))
      as (buffer & Hrun).
    exists buffer. refine (eq_trans Hrun _).
    cbn [set_history]. unfold push_back. now rewrite <- !app_assoc.
Qed.

Lemma set_history_length (scripts : list string) :
  forall set, List.length (set_history set scripts) = List.length scripts.
Proof.
  induction scripts as [ | script scripts IH ]; intros set;
    cbn [set_history List.length]; [ reflexivity | now rewrite IH ].
Qed.

Lemma set_history_nth_error (scripts : list string) :
  forall (set : Set_) (i : nat),
    nth_error (set_history set scripts) i
    = match nth_error (set :: set_history set scripts) i,
            nth_error scripts i with
      | Some s, Some script => Some (fst (act_scene s script))
      | _, _ => None
      end.
Proof.
  induction scripts as [ | script scripts IH ]; intros set i.
  - destruct i as [ | [ | i ] ]; reflexivity.
  - destruct i as [ | i ]; [ reflexivity | ].
    cbn [set_history nth_error]. apply IH.
Qed.

(** X11: the queue of [produce_scenes] is never popped: when the loop
    ends it holds one set more than there are scripts, the initial set
    first, and the set at position [i + 1] is the one [act_scene] returns
    for the set at position [i] and script [i]. *)
Theorem produce_scenes_queue_history
  (set : Set_) (into : TPerformanceBuffer) (scripts : list string) :
  exists (set_queue : list Set_) (buffer : TPerformanceBuffer),
    produce_scenes_queue set into scripts = Some (set_queue, buffer) /\
    List.length set_queue = S (List.length scripts) /\
    nth_error set_queue 0 = Some set /\
    forall i : nat,
      nth_error set_queue (S i)
      = match nth_error set_queue i, nth_error scripts i with
        | Some s, Some script => Some (fst (act_scene s script))
        | _, _ => None
        end.
Proof.
  destruct (for_each_scenes_history scripts [] set into) as (buffer & Hrun).
  exists (set :: set_history set scripts), buffer.
  split; [ exact Hrun | split; [ | split ] ].
  - cbn [List.length]. now rewrite set_history_length.
  - reflexivity.
  - intros i. cbn [nth_error]. apply set_history_nth_error.
Qed.

(** X12: the loop over two lists of scripts in a row is the loop over the
    first list followed by the loop over the second, started from the
    last set of the first queue and the buffer the first loop filled. *)
Theorem produce_scenes_app
  (set : Set_) (into : TPerformanceBuffer) (s1 s2 : list string) :
  produce_scenes set into (s1 ++ s2)
  = match produce_scenes_queue set into s1 with
    | Some (set_queue, buffer) =>
        match back set_queue with
        | Some last => produce_scenes last buffer s2
        | None => None
        end
    | None => None
    end.
Proof.
  destruct (for_each_scenes_run (s1 ++ s2) [] set into)
    as (q & last & Hrun & _ & _).
  destruct (for_each_scenes_run s1 [] set into)
    as (q1 & last1 & Hrun1 & (Hs & Hd & Ha) & Hc1).
  destruct (for_each_scenes_run s2 [] last1
              (into ++ fst (run (stage set) (stage_layout set)
                                (director (crew set)) (actor (crew set)) s1)))
    as (q2 & last2 & Hrun2 & _ & _).
  unfold produce_scenes, produce_scenes_queue.
  change [set] with (push_back [] set).
  rewrite Hrun, Hrun1, back_push_back.
  change [last1] with (push_back [] last1).
  refine (eq_trans _ (eq_sym (f_equal (option_map snd) Hrun2))).
  cbn [option_map snd]. rewrite Hs, Hd, Ha, Hc1.
  rewrite run_app. cbn [fst]. now rewrite app_assoc.
Qed.

(** A property of cursors that [adjust] of the set's director keeps
    holds of every set the loop queues. *)
Lemma queue_cursor_invariant (set : Set_) (I : StageLayout -> Prop) :
  I (stage_layout set) ->
  (forall perf c, I c -> I (adjust (director (crew set)) (stage set) perf c)) ->
  forall (into : TPerformanceBuffer) (scripts : list string),
  exists (set_queue : list Set_) (buffer : TPerformanceBuffer),
    produce_scenes_queue set into scripts = Some (set_queue, buffer) /\
    Forall (fun s => I (stage_layout s)) set_queue.
Proof.
  intros Hinit Hkeep into scripts.
  destruct (for_each_scenes_run scripts [] set into)
    as (q' & last & Hrun & _ & _).
  exists (push_back q' last). eexists.
  split; [ exact Hrun | ].
  assert (Hall : Forall (fun s => same_frame set s /\ I (stage_layout s))
                        (push_back q' last)).
  { refine (for_each_invariant
              (fun st => Forall (fun s => same_frame set s /\
                                          I (stage_layout s)) (fst st))
              scenes_body _ scripts (push_back [] set, into) _ _ Hrun).
    - intros [qs buf] script st'. unfold scenes_body. cbn [fst].
      intros Hall.
      destruct (back qs) as [ s | ] eqn:Hback; [ | discriminate ].
      intros [= <-]. cbn [fst]. unfold push_back.
      apply Forall_app. split; [ exact Hall | ].
      constructor; [ | constructor ].
      rewrite Forall_forall in Hall.
      destruct (Hall s (back_In _ _ Hback)) as ((Hs & Hd & Ha) & HI).
      split.
      + apply (same_frame_trans set s); [ now repeat split | ].
        apply act_scene_frame.
      + change (I (stage_layout (fst (act_scene s script)))).
        destruct (act_scene_steps s script) as (_ & Hlay).
        cbv zeta in Hlay. rewrite Hlay, Hs, Hd. now apply Hkeep.
    - cbn. constructor; [ | constructor ].
      split; [ apply same_frame_refl | exact Hinit ]. }
  apply Forall_forall. intros s Hin.
  rewrite Forall_forall in Hall. now apply Hall.
Qed.

End NegotiationMore.

(** ** What a run leaves untouched *)

Section RunFrames.

Import val.
Import dir.stack.

(** X13: under any of the three stack directors the two margins are
    never changed: every set the loop queues has the margins of the
    initial set. *)
Theorem stack_run_keeps_margins
  (set : Set_) (into : TPerformanceBuffer) (scripts : list string) :
  stack_director (director (crew set)) ->
  exists (set_queue : list Set_) (buffer : TPerformanceBuffer),
    produce_scenes_queue set into scripts = Some (set_queue, buffer) /\
    Forall (fun s =>
              horizontal_margin (stage_layout s)
              = horizontal_margin (stage_layout set) /\
              vertical_margin (stage_layout s)
              = vertical_margin (stage_layout set))
           set_queue.
Proof.
  intros Hd.
  apply (queue_cursor_invariant set
           (fun c => horizontal_margin c = horizontal_margin (stage_layout set)
                     /\ vertical_margin c = vertical_margin (stage_layout set))).
  - split; reflexivity.
  - intros perf c [Hh Hv].
    destruct (stack_adjust_keeps_margins _ (stage set) perf c Hd) as [-> ->].
    now split.
Qed.

Lemma stack_run_keeps_margins_witness :
  stack_director (director (crew scenario5_set)) /\
  exists (set_queue : list Set_) (buffer : TPerformanceBuffer),
    produce_scenes_queue scenario5_set [] ["First"%string; "Second"%string]
    = Some (set_queue, buffer) /\
    Forall (fun s =>
              horizontal_margin (stage_layout s)
              = horizontal_margin (stage_layout scenario5_set) /\
              vertical_margin (stage_layout s)
              = vertical_margin (stage_layout scenario5_set))
           set_queue.
Proof.
  split; [ left; reflexivity | ].
  apply (stack_run_keeps_margins scenario5_set []
           ["First"%string; "Second"%string]).
  left; reflexivity.
Defined.

(** X14: a run directed by [horizontally] never changes [y_offset] and
    [y_size]: every queued set has those of the initial set. *)
Theorem horizontal_run_keeps_y
  (set : Set_) (into : TPerformanceBuffer) (scripts : list string) :
  director (crew set) = horizontally ->
  exists (set_queue : list Set_) (buffer : TPerformanceBuffer),
    produce_scenes_queue set into scripts = Some (set_queue, buffer) /\
    Forall (fun s =>
              y_offset (stage_layout s) = y_offset (stage_layout set) /\
              y_size (stage_layout s) = y_size (stage_layout set))
           set_queue.
Proof.
  intros Hd.
  apply (queue_cursor_invariant set
           (fun c => y_offset c = y_offset (stage_layout set)
                     /\ y_size c = y_size (stage_layout set))).
  - split; reflexivity.
  - intros perf c [Ho Hs]. rewrite Hd. now split.
Qed.

Lemma horizontal_run_keeps_y_witness :
  director (crew scenario5_set) = horizontally /\
  exists (set_queue : list Set_) (buffer : TPerformanceBuffer),
    produce_scenes_queue scenario5_set [] ["First"%string; "Second"%string]
    = Some (set_queue, buffer) /\
    Forall (fun s =>
              y_offset (stage_layout s)
              = y_offset (stage_layout scenario5_set) /\
              y_size (stage_layout s) = y_size (stage_layout scenario5_set))
           set_queue.
Proof.
  split; [ reflexivity | ].
  apply (horizontal_run_keeps_y scenario5_set []
           ["First"%string; "Second"%string]).
  reflexivity.
Defined.

(** X15: a run directed by [vertically] never changes [x_offset] and
    [x_size]. *)
Theorem vertical_run_keeps_x
  (set : Set_) (into : TPerformanceBuffer) (scripts : list string) :
  director (crew set) = vertically ->
  exists (set_queue : list Set_) (buffer : TPerformanceBuffer),
    produce_scenes_queue set into scripts = Some (set_queue, buffer) /\
    Forall (fun s =>
              x_offset (stage_layout s) = x_offset (stage_layout set) /\
              x_size (stage_layout s) = x_size (stage_layout set))
           set_queue.
Proof.
  intros Hd.
  apply (queue_cursor_invariant set
           (fun c => x_offset c = x_offset (stage_layout set)
                     /\ x_size c = x_size (stage_layout set))).
  - split; reflexivity.
  - intros perf c [Ho Hs]. rewrite Hd. now split.
Qed.

Lemma vertical_run_keeps_x_witness :
  let set := mkSet scenario1_stage scenario1_cursor
                   (mkCrew vertically (fixed_width_performer 10)) in
  director (crew set) = vertically /\
  exists (set_queue : list Set_) (buffer : TPerformanceBuffer),
    produce_scenes_queue set [] ["First"%string; "Second"%string]
    = Some (set_queue, buffer) /\
    Forall (fun s =>
              x_offset (stage_layout s) = x_offset (stage_layout set) /\
              x_size (stage_layout s) = x_size (stage_layout set))
           set_queue.
Proof.
  cbv zeta. split; [ reflexivity | ].
  apply (vertical_run_keeps_x
           (mkSet scenario1_stage scenario1_cursor
                  (mkCrew vertically (fixed_width_performer 10)))
           [] ["First"%string; "Second"%string]).
  reflexivity.
Defined.

End RunFrames.

(** ** Vectors and the buffer *)

Section BufferFacts.

Lemma update_length {A : Type} (v : list A) (n : nat) (x : A) :
  List.length (Draw.update v n x) = List.length v.
Proof.
  revert n. induction v as [ | h t IH ]; intros [ | n ]; cbn; auto.
Qed.

Lemma update_nth_error_same {A : Type} (v : list A) (n : nat) (x : A) :
  (n < List.length v)%nat -> nth_error (Draw.update v n x) n = Some x.
Proof.
  revert n. induction v as [ | h t IH ]; intros [ | n ]; cbn; intros H;
    try lia; [ reflexivity | apply IH; lia ].
Qed.

Lemma update_nth_error_other {A : Type} (v : list A) (n m : nat) (x : A) :
  m <> n -> nth_error (Draw.update v n x) m = nth_error v m.
Proof.
  revert n m. induction v as [ | h t IH ]; intros [ | n ] [ | m ] H; cbn;
    try reflexivity; try congruence.
  apply IH. congruence.
Qed.

Lemma shape_update (b : Draw.buffer_t) (n : nat) (r r' : list Ascii.ascii) :
  nth_error b n = Some r -> List.length r' = List.length r ->
  shape (Draw.update b n r') = shape b.
Proof.
  unfold shape. revert n.
  induction b as [ | h t IH ]; intros [ | n ]; cbn; intros Hn Hl;
    try discriminate.
  - injection Hn as ->. now rewrite Hl.
  - f_equal. now apply IH.
Qed.

Lemma shape_nth_error (b : Draw.buffer_t) (n : nat) :
  nth_error (shape b) n = option_map (@List.length _) (nth_error b n).
Proof.
  unfold shape. apply nth_error_map.
Qed.

End BufferFacts.

(** ** Rules for confined draw operations *)

Section ChangesOnly.

(** The positions a draw operation is allowed to write. *)
Variable P : Z -> Z -> Prop.

Lemma changes_only_refl (b : Draw.buffer_t) : changes_only P b b.
Proof. split; auto. Qed.

Lemma changes_only_trans (b1 b2 b3 : Draw.buffer_t) :
  changes_only P b1 b2 -> changes_only P b2 b3 -> changes_only P b1 b3.
Proof.
  intros [Hs1 Hc1] [Hs2 Hc2]. split; [ congruence | ].
  intros row col Hr Hc Hn. rewrite Hc2, Hc1; auto.
Qed.

Lemma confined_ret {A : Type} (V : A -> Prop) (a : A) :
  V a -> confined P V (Draw.ret a).
Proof. intros Ha b. cbn. split; [ apply changes_only_refl | exact Ha ]. Qed.

Lemma confined_throw {A : Type} (V : A -> Prop) (e : Draw.exception) :
  confined P V (@Draw.throw A e).
Proof. intros b. cbn. apply changes_only_refl. Qed.

Lemma confined_undefined {A : Type} (V : A -> Prop) :
  confined P V (@Draw.undefined A).
Proof. intros b. exact I. Qed.

Lemma confined_bind {A B : Type} (V : A -> Prop) (W : B -> Prop)
  (m : Draw.M A) (k : A -> Draw.M B) :
  confined P V m -> (forall a, V a -> confined P W (k a)) ->
  confined P W (Draw.bind m k).
Proof.
  intros Hm Hk b. unfold Draw.bind.
  specialize (Hm b). destruct (m b) as [ a b1 | e b1 | ]; [ | exact Hm | exact I ].
  destruct Hm as [Hch Ha]. specialize (Hk a Ha b1).
  destruct (k a b1) as [ a2 b2 | e b2 | ]; [ | | exact I ].
  - destruct Hk as [Hch2 Hw]. split; [ | exact Hw ].
    now apply (changes_only_trans b b1 b2).
  - now apply (changes_only_trans b b1 b2).
Qed.

Lemma confined_weaken {A : Type} (V W : A -> Prop) (m : Draw.M A) :
  (forall a, V a -> W a) -> confined P V m -> confined P W m.
Proof.
  intros HVW Hm b. specialize (Hm b).
  destruct (m b) as [ a b1 | e b1 | ]; auto.
  destruct Hm as [Hch Ha]. split; auto.
Qed.

Lemma confined_store (row col : Z) (c : Ascii.ascii) :
  0 <= row -> 0 <= col -> P row col ->
  confined P (fun _ => True) (Draw.store row col c).
Proof.
  intros Hrow Hcol HP b. unfold Draw.store.
  destruct (nth_error b (Z.to_nat row)) as [ r | ] eqn:Hr; [ | exact I ].
  destruct (col <? Z.of_nat (List.length r)) eqn:Hlt; [ | exact I ].
  apply Z.ltb_lt in Hlt.
  split; [ | exact I ]. split.
  - apply (shape_update b _ r); [ exact Hr | apply update_length ].
  - intros row' col' Hr' Hc' Hn. unfold cell.
    destruct (Z.eq_dec row' row) as [ -> | Hne ].
    + rewrite update_nth_error_same, Hr
        by (apply nth_error_Some; congruence).
      apply update_nth_error_other.
      intros Heq. apply Z2Nat.inj in Heq; try lia. subst col'. contradiction.
    + rewrite update_nth_error_other; [ reflexivity | ].
      intros Heq. apply Z2Nat.inj in Heq; lia.
Qed.

Lemma wrap_add_wrap_l (a i : Z) :
  SizeT.wrap (SizeT.wrap a + i) = SizeT.wrap (a + i).
Proof. unfold SizeT.wrap. apply Z.add_mod_idemp_l. discriminate. Qed.

Lemma confined_write_string (row : Z) (s : list Ascii.ascii) :
  0 <= row ->
  forall col,
    SizeT.in_range col ->
    (forall i, 0 <= i < Z.of_nat (List.length s) ->
               P row (SizeT.wrap (col + i))) ->
    confined P (fun c => c = SizeT.wrap (col + Z.of_nat (List.length s)))
             (write_string row col s).
Proof.
  intros Hrow.
  induction s as [ | c s IH ]; intros col Hcol Hpos; cbn [write_string].
  - apply confined_ret. cbn. rewrite Z.add_0_r. symmetry.
    now apply wrap_small.
  - apply (confined_bind (fun _ => True)).
    + apply confined_store; [ exact Hrow | apply Hcol | ].
      rewrite <- (wrap_small col Hcol), <- (Z.add_0_r col).
      apply Hpos. cbn [List.length]. lia.
    + intros _ _.
      eapply confined_weaken; [ | apply IH ].
      * intros a ->. unfold SizeT.add. rewrite wrap_add_wrap_l.
        f_equal. cbn [List.length]. lia.
      * apply wrap_in_range.
      * intros i Hi. unfold SizeT.add. rewrite wrap_add_wrap_l.
        replace (col + 1 + i) with (col + (1 + i)) by lia.
        apply Hpos. cbn [List.length]. lia.
Qed.

Lemma confined_for_rows (body : Z -> Draw.M unit) (n : nat) :
  forall first,
    (forall i, 0 <= i < Z.of_nat n ->
               confined P (fun _ => True) (body (SizeT.wrap (first + i)))) ->
    SizeT.in_range first ->
    confined P (fun _ => True) (for_rows n first body).
Proof.
  induction n as [ | n IH ]; intros first Hbody Hfirst; cbn [for_rows].
  - now apply confined_ret.
  - apply (confined_bind (fun _ => True)).
    + rewrite <- (wrap_small first Hfirst), <- (Z.add_0_r first).
      apply Hbody. lia.
    + intros _ _. apply IH; [ | apply wrap_in_range ].
      intros i Hi. unfold SizeT.add. rewrite wrap_add_wrap_l.
      replace (first + 1 + i) with (first + (1 + i)) by lia.
      apply Hbody. lia.
Qed.

End ChangesOnly.

(** ** The pieces of the renderer *)

Section RendererPieces.

Variable P : Z -> Z -> Prop.
Variable max_size : Z.

Lemma to_size_t_in_range (x : float) (n : Z) :
  to_size_t x = Some n -> SizeT.in_range n.
Proof.
  unfold SizeT.in_range.
  destruct x as [ s | s | | s m e ]; cbn [to_size_t]; try discriminate.
  - intros [= <-]. unfold SizeT.modulus. lia.
  - set (mag := if 0 <=? e then Z.pos m * 2 ^ e else Z.pos m / 2 ^ (- e)).
    assert (Hmag : 0 <= mag).
    { subst mag. destruct (0 <=? e) eqn:He.
      - apply Z.leb_le in He. apply Z.mul_nonneg_nonneg; [ lia | ].
        apply Z.pow_nonneg; lia.
      - apply Z.div_pos; [ lia | ]. apply Z.pow_pos_nonneg; lia. }
    destruct s.
    + destruct (mag =? 0); [ | discriminate ].
      intros [= <-]. unfold SizeT.modulus. lia.
    + destruct (mag <? SizeT.modulus) eqn:Hlt; [ | discriminate ].
      intros [= <-]. apply Z.ltb_lt in Hlt. lia.
Qed.

Lemma confined_cast_size_t (x : float) :
  confined P (fun n => to_size_t x = Some n /\ SizeT.in_range n)
           (Draw.cast_size_t x).
Proof.
  unfold Draw.cast_size_t.
  destruct (to_size_t x) as [ n | ] eqn:Hx.
  - apply confined_ret. split; [ reflexivity | ].
    now apply (to_size_t_in_range x).
  - apply confined_undefined.
Qed.

Lemma confined_make_string (count : Z) (ch : Ascii.ascii) :
  confined P (fun s => s = repeat ch (Z.to_nat count) /\ count <= max_size)
           (make_string max_size count ch).
Proof.
  unfold make_string.
  destruct (max_size <? count) eqn:Hlt.
  - apply confined_throw.
  - apply confined_ret. apply Z.ltb_ge in Hlt. now split.
Qed.

Lemma confined_concat (a b : list Ascii.ascii) :
  confined P (fun s => s = a ++ b /\
                       Z.of_nat (List.length (a ++ b)) <= max_size)
           (concat max_size a b).
Proof.
  unfold concat.
  destruct (max_size <? _) eqn:Hlt.
  - apply confined_throw.
  - apply confined_ret. apply Z.ltb_ge in Hlt.
    split; [ reflexivity | ]. rewrite length_app. lia.
Qed.

Lemma confined_border_line (count : Z) (ch : Ascii.ascii) :
  0 <= count ->
  confined P (fun s => s = bar :: repeat ch (Z.to_nat count) ++ [bar] /\
                       Z.of_nat (List.length s) = count + 2 /\
                       count + 2 <= max_size)
           (border_line max_size count ch).
Proof.
  intros Hcount. unfold border_line.
  eapply confined_bind; [ apply confined_make_string | ].
  intros filler [-> Hmax].
  eapply confined_bind; [ apply confined_concat | ].
  intros s [-> Hlen1].
  eapply confined_weaken; [ | apply confined_concat ].
  intros s [-> Hlen2]. cbn [app] in *.
  split; [ reflexivity | ].
  cbn [List.length] in *. rewrite length_app, repeat_length in *.
  cbn [List.length] in *. lia.
Qed.

Lemma list_ascii_length (script : string) :
  List.length (list_ascii_of_string script) = String.length script.
Proof.
  induction script as [ | c script IH ]; cbn; [ reflexivity | now rewrite IH ].
Qed.

Lemma substr0_length (script : string) (count : Z) :
  0 <= count ->
  Z.of_nat (List.length (substr0 script count))
  = Z.min count (Z.of_nat (String.length script)).
Proof.
  intros Hc. unfold substr0.
  rewrite length_firstn, list_ascii_length. lia.
Qed.

End RendererPieces.

(** ** The draw operation never resizes the buffer *)

Ltac in_range :=
  first [ assumption | apply add_in_range | apply sub_in_range
        | apply wrap_in_range
        | apply in_range_nonneg;
          first [ assumption | apply add_in_range | apply sub_in_range
                | apply wrap_in_range ] ].

Section DrawShape.

Variable max_size : Z.


Lemma write_string_anywhere (row col : Z) (s : list Ascii.ascii) :
  SizeT.in_range row -> SizeT.in_range col ->
  confined anywhere (fun c => SizeT.in_range c) (write_string row col s).
Proof.
  intros Hrow Hcol.
  eapply confined_weaken;
    [ | apply confined_write_string;
        [ apply Hrow | exact Hcol | intros; exact I ] ].
  intros a ->. apply wrap_in_range.
Qed.

Lemma border_row_anywhere (count row col : Z) (ch : Ascii.ascii) :
  SizeT.in_range count -> SizeT.in_range row -> SizeT.in_range col ->
  confined anywhere (fun _ => True)
    (Draw.bind (border_line max_size count ch)
       (fun line => Draw.bind (write_string row col line)
                              (fun _ => Draw.ret tt))).
Proof.
  intros Hcount Hrow Hcol.
  eapply confined_bind; [ apply confined_border_line; in_range | ].
  intros line _.
  eapply confined_bind; [ now apply write_string_anywhere | ].
  intros _ _. now apply confined_ret.
Qed.

Lemma for_rows_between_anywhere (first bound count col : Z)
  (ch : Ascii.ascii) :
  SizeT.in_range first -> SizeT.in_range count -> SizeT.in_range col ->
  confined anywhere (fun _ => True)
    (for_rows_between first bound
       (fun row_idx =>
          Draw.bind (border_line max_size count ch)
            (fun line => Draw.bind (write_string row_idx col line)
                                   (fun _ => Draw.ret tt)))).
Proof.
  intros Hfirst Hcount Hcol. unfold for_rows_between.
  apply confined_for_rows; [ | in_range ].
  intros i _. apply border_row_anywhere; in_range.
Qed.

Lemma renderer_draw_anywhere (script : string) (stage : val.Stage) :
  confined anywhere (fun _ => True) (renderer_draw max_size script stage).
Proof.
  unfold renderer_draw.
  eapply confined_bind; [ apply confined_cast_size_t | ].
  intros border_dim [_ Hborder].
  eapply confined_bind; [ apply confined_cast_size_t | ].
  intros col_start [_ Hstart].
  eapply confined_bind; [ apply confined_cast_size_t | ].
  intros col_end [_ Hend].
  destruct (col_end <=? col_start); [ apply confined_throw | ].
  eapply confined_bind; [ apply confined_cast_size_t | ].
  intros frame_y_start [_ Hys].
  eapply confined_bind; [ apply confined_cast_size_t | ].
  intros frame_y_end [_ Hye].
  eapply confined_bind;
    [ apply confined_border_line; in_range | ].
  intros line1 _.
  eapply confined_bind; [ now apply write_string_anywhere | ].
  intros _ _.
  eapply confined_bind;
    [ apply for_rows_between_anywhere; in_range | ].
  intros _ _.
  eapply confined_bind;
    [ apply confined_store;
      [ in_range | in_range | exact I ] | ].
  intros _ _.
  eapply confined_bind;
    [ apply write_string_anywhere; in_range | ].
  intros col_idx Hidx.
  eapply confined_bind; [ apply confined_make_string | ].
  intros padding _.
  eapply confined_bind; [ apply confined_concat | ].
  intros line2 _.
  eapply confined_bind;
    [ apply write_string_anywhere; [ in_range | in_range ] | ].
  intros _ _.
  eapply confined_bind;
    [ apply for_rows_between_anywhere; in_range | ].
  intros _ _.
  eapply confined_bind;
    [ apply confined_border_line; in_range | ].
  intros line3 _.
  eapply confined_bind; [ now apply write_string_anywhere | ].
  intros _ _. now apply confined_ret.
Qed.

(** X16: the draw operation never resizes anything: whether it ends
    normally or throws, the buffer it leaves has the rows of the buffer
    it was given, each of the same length. *)
Theorem renderer_draw_keeps_shape
  (script : string) (stage : val.Stage) (b : Draw.buffer_t) :
  match renderer_draw max_size script stage b with
  | Draw.Done _ b' => shape b' = shape b
  | Draw.Throws _ b' => shape b' = shape b
  | Draw.Undefined => True
  end.
Proof.
  pose proof (renderer_draw_anywhere script stage b) as H.
  destruct (renderer_draw max_size script stage b) as [ a b' | e b' | ];
    [ apply H | apply H | exact I ].
Qed.

End DrawShape.

(** ** The draw operation stays inside its frame *)

Section DrawFrame.

Variable P : Z -> Z -> Prop.
Variable max_size : Z.

Lemma sub_cases (x y : Z) :
  SizeT.in_range x -> SizeT.in_range y ->
  (y <= x /\ SizeT.sub x y = x - y) \/
  (x < y /\ SizeT.sub x y = x - y + SizeT.modulus).
Proof.
  unfold SizeT.in_range, SizeT.sub, SizeT.wrap. intros Hx Hy.
  destruct (Z_le_gt_dec y x) as [ Hle | Hgt ].
  - left. split; [ exact Hle | ]. apply Z.mod_small. lia.
  - right. split; [ lia | ]. symmetry.
    apply (Z.mod_unique _ _ (-1)); lia.
Qed.

(** One border row, [bar], [count] times [ch], [bar], written from
    column [col] of row [row]. *)
Lemma confined_border_row (count row col : Z) (ch : Ascii.ascii) :
  0 <= count -> 0 <= row -> SizeT.in_range col ->
  col + count + 2 <= SizeT.modulus ->
  (forall c, col <= c < col + count + 2 -> P row c) ->
  confined P (fun _ => True)
    (Draw.bind (border_line max_size count ch)
       (fun line => Draw.bind (write_string row col line)
                              (fun _ => Draw.ret tt))).
Proof.
  intros Hcount Hrow Hcol Hfit HP.
  eapply confined_bind; [ apply confined_border_line; exact Hcount | ].
  intros line (_ & Hlen & _).
  eapply confined_bind;
    [ apply confined_write_string; [ exact Hrow | exact Hcol | ] | ].
  - intros i Hi. rewrite wrap_small.
    + apply HP. lia.
    + unfold SizeT.in_range in *. lia.
  - intros _ _. now apply confined_ret.
Qed.

Lemma confined_rows_between (first bound count col : Z) (ch : Ascii.ascii) :
  SizeT.in_range first -> bound <= SizeT.modulus ->
  0 <= count -> SizeT.in_range col ->
  col + count + 2 <= SizeT.modulus ->
  (forall r c, first <= r < bound -> col <= c < col + count + 2 -> P r c) ->
  confined P (fun _ => True)
    (for_rows_between first bound
       (fun row_idx =>
          Draw.bind (border_line max_size count ch)
            (fun line => Draw.bind (write_string row_idx col line)
                                   (fun _ => Draw.ret tt)))).
Proof.
  intros Hfirst Hbound Hcount Hcol Hfit HP. unfold for_rows_between.
  apply confined_for_rows; [ | exact Hfirst ].
  intros i Hi.
  assert (Hrow : SizeT.wrap (first + i) = first + i).
  { apply wrap_small. unfold SizeT.in_range in *. lia. }
  rewrite Hrow.
  apply confined_border_row; try assumption.
  - unfold SizeT.in_range in *. lia.
  - intros c Hc. apply HP; lia.
Qed.

End DrawFrame.

(** ** The draw operation writes inside the frame only *)

Section DrawInFrame.

Variable max_size : Z.
Variable script : string.
Variable stage : val.Stage.
Variables xs xe ys ye : Z.
Hypothesis Hleft : to_size_t (val.left stage) = Some xs.
Hypothesis Hright : to_size_t (val.right stage) = Some xe.
Hypothesis Htop : to_size_t (val.top stage) = Some ys.
Hypothesis Hbottom : to_size_t (val.bottom stage) = Some ye.
Hypothesis Hrows : ys <= ye.
Hypothesis Hlast : ye < SizeT.modulus - 1.
Hypothesis Hmax : SizeT.in_range max_size.

Lemma renderer_draw_in_frame :
  confined (in_frame xs xe ys ye) (fun _ => True) (renderer_draw max_size script stage).
Proof.
  pose proof (to_size_t_in_range _ _ Hleft) as Rxs.
  pose proof (to_size_t_in_range _ _ Hright) as Rxe.
  pose proof (to_size_t_in_range _ _ Htop) as Rys.
  pose proof (to_size_t_in_range _ _ Hbottom) as Rye.
  unfold renderer_draw.
  eapply confined_bind; [ apply confined_cast_size_t | ].
  intros border_dim [Hb _].
  change (to_size_t border_size) with (Some 1) in Hb. injection Hb as <-.
  eapply confined_bind; [ apply confined_cast_size_t | ].
  intros col_start [Hl _]. rewrite Hleft in Hl. injection Hl as <-.
  eapply confined_bind; [ apply confined_cast_size_t | ].
  intros col_end [Hr _]. rewrite Hright in Hr. injection Hr as <-.
  destruct (xe <=? xs) eqn:Hdeg; [ apply confined_throw | ].
  apply Z.leb_gt in Hdeg.
  eapply confined_bind; [ apply confined_cast_size_t | ].
  intros frame_y_start [Ht _]. rewrite Htop in Ht. injection Ht as <-.
  eapply confined_bind; [ apply confined_cast_size_t | ].
  intros frame_y_end [Hbo _]. rewrite Hbottom in Hbo. injection Hbo as <-.
  change (SizeT.wrap (1 * 2)) with 2.
  assert (Hfw : SizeT.sub xe xs = xe - xs).
  { destruct (sub_cases xe xs Rxe Rxs) as [[_ H] | [H _]]; [ exact H | lia ]. }
  rewrite Hfw.
  eapply confined_bind; [ apply confined_border_line; in_range | ].
  intros line1 (_ & Hlen1 & Hmax1).
  assert (Hfill : 2 <= xe - xs /\ SizeT.sub (xe - xs) 2 = xe - xs - 2).
  { destruct (sub_cases (xe - xs) 2) as [[H1 H2] | [H1 H2]].
    - unfold SizeT.in_range in *. lia.
    - unfold SizeT.in_range, SizeT.modulus. lia.
    - now split.
    - unfold SizeT.in_range in *. lia. }
  destruct Hfill as [Hwide Hfill]. rewrite Hfill in *. clear Hfill.
  assert (Hty : SizeT.add ys (SizeT.div (SizeT.sub ye ys) 2)
                = ys + (ye - ys) / 2).
  { destruct (sub_cases ye ys Rye Rys) as [[_ H] | [H _]]; [ | lia ].
    rewrite H. unfold SizeT.add, SizeT.div. apply wrap_small.
    unfold SizeT.in_range in *.
    pose proof (Z.div_mod (ye - ys) 2 ltac:(lia)).
    pose proof (Z.mod_pos_bound (ye - ys) 2 ltac:(lia)). lia. }
  rewrite Hty. clear Hty.
  set (ty := ys + (ye - ys) / 2).
  assert (Htyb : ys <= ty <= ye).
  { subst ty.
    pose proof (Z.div_mod (ye - ys) 2 ltac:(lia)).
    pose proof (Z.mod_pos_bound (ye - ys) 2 ltac:(lia)). lia. }
  clearbody ty.
  pose proof (substr0_length script (xe - xs - 2) ltac:(lia)) as Hsw.
  set (final_script := substr0 script (xe - xs - 2)) in *.
  set (sw := Z.of_nat (List.length final_script)) in *.
  assert (Hswb : 0 <= sw <= xe - xs - 2) by lia.
  assert (Hrest : SizeT.sub (xe - xs) sw = xe - xs - sw).
  { assert (R1 : SizeT.in_range (xe - xs))
      by (unfold SizeT.in_range in *; lia).
    assert (R2 : SizeT.in_range sw) by (unfold SizeT.in_range in *; lia).
    destruct (sub_cases _ _ R1 R2) as [[_ H] | [H _]]; [ exact H | lia ]. }
  rewrite Hrest. clear Hrest.
  destruct (split_value_bounds (xe - xs - sw)) as (Hsum & Hbal & Rlp & Rrp).
  { unfold SizeT.in_range in *. lia. }
  set (lp := fst (split_value (xe - xs - sw))) in *.
  set (rp := snd (split_value (xe - xs - sw))) in *.
  clearbody lp rp.
  assert (Hlp : 1 <= lp /\ 1 <= rp) by lia.
  assert (Htx : SizeT.add xs lp = xs + lp).
  { apply wrap_small. unfold SizeT.in_range in *. lia. }
  assert (Hrp1 : SizeT.sub rp 1 = rp - 1).
  { apply wrap_small. unfold SizeT.in_range in *. lia. }
  assert (Hy1 : SizeT.add ys 1 = ys + 1).
  { apply wrap_small. unfold SizeT.in_range in *. lia. }
  assert (Hty1 : SizeT.add ty 1 = ty + 1).
  { apply wrap_small. unfold SizeT.in_range in *. lia. }
  rewrite Htx, Hrp1, Hy1, Hty1. clear Htx Hrp1 Hy1 Hty1.
  unfold SizeT.in_range in Rxs, Rxe, Rys, Rye, Rlp, Rrp.
  (* top border *)
  eapply confined_bind.
  { apply confined_write_string; [ lia | split; lia | ].
    intros i Hi. rewrite wrap_small by (split; lia).
    unfold in_frame. lia. }
  intros _ _.
  eapply confined_bind.
  { apply confined_rows_between;
      first [ split; lia | lia
            | intros r c Hr Hc; unfold in_frame; lia ]. }
  intros _ _.
  (* text row *)
  eapply confined_bind.
  { apply confined_store; [ lia | lia | unfold in_frame; lia ]. }
  intros _ _.
  eapply confined_bind.
  { apply confined_write_string; [ lia | split; lia | ].
    intros i Hi. rewrite wrap_small by (split; lia).
    unfold in_frame. fold sw in Hi. lia. }
  intros col_idx ->. fold sw.
  rewrite wrap_small by (split; lia).
  eapply confined_bind; [ apply confined_make_string | ].
  intros padding [-> _].
  eapply confined_bind; [ apply confined_concat | ].
  intros line2 [-> _].
  eapply confined_bind.
  { apply confined_write_string; [ lia | split; lia | ].
    intros i Hi. rewrite length_app, repeat_length in Hi.
    cbn [List.length] in Hi.
    rewrite wrap_small by (split; lia).
    unfold in_frame. lia. }
  intros _ _.
  eapply confined_bind.
  { apply confined_rows_between;
      first [ split; lia | lia
            | intros r c Hr Hc; unfold in_frame; lia ]. }
  intros _ _.
  (* bottom border *)
  eapply confined_bind; [ apply confined_border_line; lia | ].
  intros line3 (_ & Hlen3 & _).
  eapply confined_bind.
  { apply confined_write_string; [ lia | split; lia | ].
    intros i Hi. rewrite wrap_small by (split; lia).
    unfold in_frame. lia. }
  intros _ _. now apply confined_ret.
Qed.

End DrawInFrame.

Section DrawInFrameTheorem.

(** X17: for a placement whose top row is not below its bottom row, and
    with [max_size] a [size_t], the draw operation writes inside the
    frame only: whether it ends normally or throws, the buffer keeps its
    shape and every position outside rows [ys..ye] and columns
    [xs..xe-1] holds what it held before. *)
Theorem renderer_draw_stays_in_frame
  (max_size : Z) (script : string) (stage : val.Stage)
  (xs xe ys ye : Z) (b : Draw.buffer_t) :
  to_size_t (val.left stage) = Some xs ->
  to_size_t (val.right stage) = Some xe ->
  to_size_t (val.top stage) = Some ys ->
  to_size_t (val.bottom stage) = Some ye ->
  ys <= ye ->
  ye < SizeT.modulus - 1 ->
  SizeT.in_range max_size ->
  match renderer_draw max_size script stage b with
  | Draw.Done _ b' => changes_only (in_frame xs xe ys ye) b b'
  | Draw.Throws _ b' => changes_only (in_frame xs xe ys ye) b b'
  | Draw.Undefined => True
  end.
Proof.
  intros Hl Hr Ht Hb Hrows Hlast Hmax.
  pose proof (renderer_draw_in_frame max_size script stage xs xe ys ye
                Hl Hr Ht Hb Hrows Hlast Hmax b) as H.
  destruct (renderer_draw max_size script stage b) as [ a b' | e b' | ];
    [ apply H | apply H | exact I ].
Qed.

Lemma renderer_draw_stays_in_frame_witness :
  let stage := val.mkStage (F32.of_Z 1) (F32.of_Z 7)
                           (F32.of_Z 0) (F32.of_Z 2) in
  let b := val.buffer (make_screen 10 4) in
  to_size_t (val.left stage) = Some 1 /\
  to_size_t (val.right stage) = Some 7 /\
  to_size_t (val.top stage) = Some 0 /\
  to_size_t (val.bottom stage) = Some 2 /\
  match renderer_draw 1000 "Hi" stage b with
  | Draw.Done _ b' => changes_only (in_frame 1 7 0 2) b b'
  | Draw.Throws _ b' => changes_only (in_frame 1 7 0 2) b b'
  | Draw.Undefined => True
  end.
Proof.
  cbv zeta.
  do 4 (split; [ vm_compute; reflexivity | ]).
  apply (renderer_draw_stays_in_frame 1000 "Hi"
           (val.mkStage (F32.of_Z 1) (F32.of_Z 7) (F32.of_Z 0) (F32.of_Z 2))
           1 7 0 2 (val.buffer (make_screen 10 4))).
  - vm_compute; reflexivity.
  - vm_compute; reflexivity.
  - vm_compute; reflexivity.
  - vm_compute; reflexivity.
  - lia.
  - unfold SizeT.modulus; lia.
  - unfold SizeT.in_range, SizeT.modulus; lia.
Defined.

End DrawInFrameTheorem.

(** ** Rules for draw operations that complete *)

Section Completes.

Variable s : list nat.
Variable max_size : Z.

Lemma completes_ret {A : Type} (V : A -> Prop) (a : A) :
  V a -> completes s V (fun _ => True) (Draw.ret a).
Proof. intros Ha b Hb. exists a, b. repeat split; auto. Qed.

Lemma completes_bind {A B : Type} (V : A -> Prop) (W : B -> Prop)
  (Q0 Q : Draw.buffer_t -> Prop) (m : Draw.M A) (k : A -> Draw.M B) :
  completes s V Q0 m -> (forall a, V a -> completes s W Q (k a)) ->
  completes s W Q (Draw.bind m k).
Proof.
  intros Hm Hk b Hb.
  destruct (Hm b Hb) as (a & b1 & Hrun & Hs1 & Ha & _).
  destruct (Hk a Ha b1 Hs1) as (a2 & b2 & Hrun2 & Hs2 & Hw & Hq).
  exists a2, b2. unfold Draw.bind. rewrite Hrun. auto.
Qed.

Lemma completes_bind_ret {A B : Type} (V : A -> Prop) (W : B -> Prop)
  (Q : Draw.buffer_t -> Prop) (m : Draw.M A) (x : B) :
  completes s V Q m -> W x ->
  completes s W Q (Draw.bind m (fun _ => Draw.ret x)).
Proof.
  intros Hm Hx b Hb.
  destruct (Hm b Hb) as (a & b1 & Hrun & Hs1 & _ & Hq).
  exists x, b1. unfold Draw.bind, Draw.ret. rewrite Hrun. auto.
Qed.

Lemma completes_weaken {A : Type} (V W : A -> Prop)
  (Q Q' : Draw.buffer_t -> Prop) (m : Draw.M A) :
  (forall a, V a -> W a) -> (forall b, Q b -> Q' b) ->
  completes s V Q m -> completes s W Q' m.
Proof.
  intros HVW HQ Hm b Hb.
  destruct (Hm b Hb) as (a & b1 & Hrun & Hs1 & Ha & Hq).
  exists a, b1. auto.
Qed.

Lemma completes_cast_size_t (x : float) (n : Z) :
  to_size_t x = Some n ->
  completes s (fun a => a = n) (fun _ => True) (Draw.cast_size_t x).
Proof.
  intros Hx. unfold Draw.cast_size_t. rewrite Hx. now apply completes_ret.
Qed.

Lemma completes_make_string (count : Z) (ch : Ascii.ascii) :
  count <= max_size ->
  completes s (fun str => str = repeat ch (Z.to_nat count)) (fun _ => True)
            (make_string max_size count ch).
Proof.
  intros Hc. unfold make_string.
  destruct (max_size <? count) eqn:Hlt; [ apply Z.ltb_lt in Hlt; lia | ].
  now apply completes_ret.
Qed.

Lemma completes_concat (a b : list Ascii.ascii) :
  Z.of_nat (List.length a) + Z.of_nat (List.length b) <= max_size ->
  completes s (fun str => str = a ++ b) (fun _ => True)
            (concat max_size a b).
Proof.
  intros Hc. unfold concat.
  destruct (max_size <? _) eqn:Hlt; [ apply Z.ltb_lt in Hlt; lia | ].
  now apply completes_ret.
Qed.

Lemma completes_border_line (count : Z) (ch : Ascii.ascii) :
  0 <= count -> count + 2 <= max_size ->
  completes s (fun str => str = bar :: repeat ch (Z.to_nat count) ++ [bar])
            (fun _ => True) (border_line max_size count ch).
Proof.
  intros Hc Hm. unfold border_line.
  eapply completes_bind; [ apply completes_make_string; lia | ].
  intros filler ->.
  eapply completes_bind.
  { apply completes_concat. cbn [List.length]. rewrite repeat_length. lia. }
  intros str ->.
  eapply completes_weaken; [ | | apply completes_concat ].
  - intros a ->. reflexivity.
  - auto.
  - cbn [List.length app]. rewrite repeat_length. lia.
Qed.

Lemma completes_store (row col : Z) (c : Ascii.ascii) :
  has_cell s row col ->
  completes s (fun _ => True) (fun b' => cell b' row col = Some c)
            (Draw.store row col c).
Proof.
  intros (Hrow & Hcol & len & Hlen & Hlt) b Hb.
  unfold Draw.store.
  rewrite <- Hb, shape_nth_error in Hlen.
  destruct (nth_error b (Z.to_nat row)) as [ r | ] eqn:Hr; [ | discriminate ].
  cbn in Hlen. injection Hlen as <-.
  destruct (col <? Z.of_nat (List.length r)) eqn:Hc;
    [ | apply Z.ltb_ge in Hc; lia ].
  exists tt. eexists. split; [ reflexivity | ].
  split; [ | split; [ exact I | ] ].
  - rewrite <- Hb. apply (shape_update b _ r); [ exact Hr | ].
    apply update_length.
  - unfold cell. rewrite update_nth_error_same
      by (apply nth_error_Some; congruence).
    apply update_nth_error_same. lia.
Qed.

Lemma completes_write_string (row : Z) (str : list Ascii.ascii) :
  forall col,
    SizeT.in_range col ->
    col + Z.of_nat (List.length str) < SizeT.modulus ->
    (forall i, 0 <= i < Z.of_nat (List.length str) ->
               has_cell s row (col + i)) ->
    0 <= row ->
    completes s (fun c => c = col + Z.of_nat (List.length str))
              (fun b' => reads b' row col str)
              (write_string row col str).
Proof.
  induction str as [ | c str IH ]; intros col Hcol Hfit Hcells Hrow b Hb;
    cbn [write_string].
  - exists col, b. cbn [List.length]. repeat split; auto; try lia.
    intros i Hi. cbn [List.length] in Hi. lia.
  - cbn [List.length] in Hfit, Hcells.
    destruct (completes_store row col c) with (b := b)
      as (u1 & b1 & Hrun1 & Hs1 & _ & Hc1); [ | exact Hb | ].
    { rewrite <- (Z.add_0_r col). apply Hcells. lia. }
    assert (Hnext : SizeT.add col 1 = col + 1).
    { apply wrap_small. unfold SizeT.in_range in *. lia. }
    destruct (IH (col + 1)) with (b := b1)
      as (c2 & b2 & Hrun2 & Hs2 & -> & Hreads); try assumption.
    { unfold SizeT.in_range in *. lia. }
    { lia. }
    { intros i Hi. replace (col + 1 + i) with (col + (1 + i)) by lia.
      apply Hcells. lia. }
    exists (col + 1 + Z.of_nat (List.length str)), b2.
    unfold Draw.bind. rewrite Hrun1, Hnext, Hrun2.
    split; [ reflexivity | ]. split; [ exact Hs2 | ].
    split; [ cbn [List.length]; lia | ].
    pose proof (confined_write_string
                  (fun r c' => r = row /\ col + 1 <= c') row str Hrow
                  (col + 1)) as Hconf.
    specialize (Hconf ltac:(unfold SizeT.in_range in *; lia)).
    assert (Hpos : forall i, 0 <= i < Z.of_nat (List.length str) ->
                             row = row /\
                             col + 1 <= SizeT.wrap (col + 1 + i)).
    { intros i Hi. rewrite wrap_small
        by (unfold SizeT.in_range in *; lia). lia. }
    specialize (Hconf Hpos b1). rewrite Hrun2 in Hconf.
    destruct Hconf as [[_ Hsame] _].
    intros i Hi. cbn [List.length] in Hi.
    destruct (Z.eq_dec i 0) as [ -> | Hne ].
    + rewrite Z.add_0_r. cbn [Z.to_nat nth_error].
      rewrite Hsame; [ exact Hc1 | lia | unfold SizeT.in_range in *; lia | lia ].
    + replace (col + i) with (col + 1 + (i - 1)) by lia.
      rewrite Hreads by lia.
      replace (Z.to_nat i) with (S (Z.to_nat (i - 1))) by lia.
      reflexivity.
Qed.

Lemma completes_for_rows (body : Z -> Draw.M unit) (n : nat) :
  forall first,
    (forall i, 0 <= i < Z.of_nat n ->
               completes s (fun _ => True) (fun _ => True)
                         (body (SizeT.wrap (first + i)))) ->
    SizeT.in_range first ->
    completes s (fun _ => True) (fun _ => True) (for_rows n first body).
Proof.
  induction n as [ | n IH ]; intros first Hbody Hfirst; cbn [for_rows].
  - now apply completes_ret.
  - eapply completes_bind.
    + rewrite <- (wrap_small first Hfirst), <- (Z.add_0_r first).
      apply Hbody. lia.
    + intros _ _. apply IH; [ | apply wrap_in_range ].
      intros i Hi. unfold SizeT.add. rewrite wrap_add_wrap_l.
      replace (first + 1 + i) with (first + (1 + i)) by lia.
      apply Hbody. lia.
Qed.

Lemma completes_border_row (count row col : Z) (ch : Ascii.ascii) :
  0 <= count -> count + 2 <= max_size -> 0 <= row ->
  SizeT.in_range col -> col + count + 2 < SizeT.modulus ->
  (forall c, col <= c < col + count + 2 -> has_cell s row c) ->
  completes s (fun _ => True) (fun _ => True)
    (Draw.bind (border_line max_size count ch)
       (fun line => Draw.bind (write_string row col line)
                              (fun _ => Draw.ret tt))).
Proof.
  intros Hcount Hmax Hrow Hcol Hfit Hcells.
  eapply completes_bind; [ now apply completes_border_line | ].
  intros line ->.
  assert (Hlen : Z.of_nat (List.length
                    (bar :: repeat ch (Z.to_nat count) ++ [bar]))
                 = count + 2).
  { cbn [List.length]. rewrite length_app, repeat_length.
    cbn [List.length]. lia. }
  apply (completes_weaken (fun _ => True) (fun _ => True)
           (fun b' => reads b' row col
                        (bar :: repeat ch (Z.to_nat count) ++ [bar]))
           (fun _ => True)); [ auto | auto | ].
  eapply completes_bind_ret; [ | exact I ].
  apply completes_write_string; try assumption.
  - rewrite Hlen. lia.
  - intros i Hi. rewrite Hlen in Hi. apply Hcells. lia.
Qed.

Lemma completes_rows_between (first bound count col : Z) (ch : Ascii.ascii) :
  SizeT.in_range first -> bound <= SizeT.modulus ->
  0 <= count -> count + 2 <= max_size ->
  SizeT.in_range col -> col + count + 2 < SizeT.modulus ->
  (forall r c, first <= r < bound -> col <= c < col + count + 2 ->
               has_cell s r c) ->
  completes s (fun _ => True) (fun _ => True)
    (for_rows_between first bound
       (fun row_idx =>
          Draw.bind (border_line max_size count ch)
            (fun line => Draw.bind (write_string row_idx col line)
                                   (fun _ => Draw.ret tt)))).
Proof.
  intros Hfirst Hbound Hcount Hmax Hcol Hfit Hcells.
  unfold for_rows_between.
  apply completes_for_rows; [ | exact Hfirst ].
  intros i Hi.
  assert (Hrow : SizeT.wrap (first + i) = first + i).
  { apply wrap_small. unfold SizeT.in_range in *. lia. }
  rewrite Hrow.
  apply completes_border_row; try assumption.
  - unfold SizeT.in_range in *. lia.
  - intros c Hc. apply Hcells; lia.
Qed.

End Completes.

Section DrawCompletes.

Variable max_size : Z.
Variable script : string.
Variable stage : val.Stage.
Variables xs xe ys ye : Z.
Variable s : list nat.
Hypothesis Hleft : to_size_t (val.left stage) = Some xs.
Hypothesis Hright : to_size_t (val.right stage) = Some xe.
Hypothesis Htop : to_size_t (val.top stage) = Some ys.
Hypothesis Hbottom : to_size_t (val.bottom stage) = Some ye.
Hypothesis Hwide : xs + 2 <= xe.
Hypothesis Hrows : ys <= ye.
Hypothesis Hlast : ye < SizeT.modulus - 1.
Hypothesis Hmax : xe - xs <= max_size.
Hypothesis Hcells :
  forall r c, ys <= r <= ye -> xs <= c < xe -> has_cell s r c.

Lemma border_length (count : Z) (ch : Ascii.ascii) :
  0 <= count ->
  Z.of_nat (List.length (bar :: repeat ch (Z.to_nat count) ++ [bar]))
  = count + 2.
Proof.
  intros Hc. cbn [List.length]. rewrite length_app, repeat_length.
  cbn [List.length]. lia.
Qed.

Lemma renderer_draw_completes :
  completes s (fun _ => True)
    (fun b' => reads b' ye xs
                 (bar :: repeat dash (Z.to_nat (xe - xs - 2)) ++ [bar]))
    (renderer_draw max_size script stage).
Proof.
  pose proof (to_size_t_in_range _ _ Hleft) as Rxs.
  pose proof (to_size_t_in_range _ _ Hright) as Rxe.
  pose proof (to_size_t_in_range _ _ Htop) as Rys.
  pose proof (to_size_t_in_range _ _ Hbottom) as Rye.
  unfold renderer_draw.
  eapply completes_bind;
    [ apply (completes_cast_size_t s border_size 1); reflexivity | ].
  intros border_dim ->.
  eapply completes_bind; [ apply completes_cast_size_t; exact Hleft | ].
  intros col_start ->.
  eapply completes_bind; [ apply completes_cast_size_t; exact Hright | ].
  intros col_end ->.
  destruct (xe <=? xs) eqn:Hdeg; [ apply Z.leb_le in Hdeg; lia | ].
  clear Hdeg.
  eapply completes_bind; [ apply completes_cast_size_t; exact Htop | ].
  intros frame_y_start ->.
  eapply completes_bind; [ apply completes_cast_size_t; exact Hbottom | ].
  intros frame_y_end ->.
  change (SizeT.wrap (1 * 2)) with 2.
  assert (Hfw : SizeT.sub xe xs = xe - xs).
  { destruct (sub_cases xe xs Rxe Rxs) as [[_ H] | [H _]]; [ exact H | lia ]. }
  rewrite Hfw. clear Hfw.
  assert (Hfill : SizeT.sub (xe - xs) 2 = xe - xs - 2).
  { apply wrap_small. unfold SizeT.in_range in *. lia. }
  rewrite Hfill. clear Hfill.
  assert (Hty : SizeT.add ys (SizeT.div (SizeT.sub ye ys) 2)
                = ys + (ye - ys) / 2).
  { destruct (sub_cases ye ys Rye Rys) as [[_ H] | [H _]]; [ | lia ].
    rewrite H. unfold SizeT.add, SizeT.div. apply wrap_small.
    unfold SizeT.in_range in *.
    pose proof (Z.div_mod (ye - ys) 2 ltac:(lia)).
    pose proof (Z.mod_pos_bound (ye - ys) 2 ltac:(lia)). lia. }
  rewrite Hty. clear Hty.
  set (ty := ys + (ye - ys) / 2).
  assert (Htyb : ys <= ty <= ye).
  { subst ty.
    pose proof (Z.div_mod (ye - ys) 2 ltac:(lia)).
    pose proof (Z.mod_pos_bound (ye - ys) 2 ltac:(lia)). lia. }
  clearbody ty.
  pose proof (substr0_length script (xe - xs - 2) ltac:(lia)) as Hsw.
  set (final_script := substr0 script (xe - xs - 2)) in *.
  set (sw := Z.of_nat (List.length final_script)) in *.
  assert (Hswb : 0 <= sw <= xe - xs - 2) by lia.
  assert (Hrest : SizeT.sub (xe - xs) sw = xe - xs - sw).
  { apply wrap_small. unfold SizeT.in_range in *. lia. }
  rewrite Hrest. clear Hrest.
  destruct (split_value_bounds (xe - xs - sw)) as (Hsum & Hbal & Rlp & Rrp).
  { unfold SizeT.in_range in *. lia. }
  set (lp := fst (split_value (xe - xs - sw))) in *.
  set (rp := snd (split_value (xe - xs - sw))) in *.
  clearbody lp rp.
  assert (Hlp : 1 <= lp /\ 1 <= rp) by lia.
  assert (Htx : SizeT.add xs lp = xs + lp).
  { apply wrap_small. unfold SizeT.in_range in *. lia. }
  assert (Hrp1 : SizeT.sub rp 1 = rp - 1).
  { apply wrap_small. unfold SizeT.in_range in *. lia. }
  assert (Hy1 : SizeT.add ys 1 = ys + 1).
  { apply wrap_small. unfold SizeT.in_range in *. lia. }
  assert (Hty1 : SizeT.add ty 1 = ty + 1).
  { apply wrap_small. unfold SizeT.in_range in *. lia. }
  rewrite Htx, Hrp1, Hy1, Hty1. clear Htx Hrp1 Hy1 Hty1.
  unfold SizeT.in_range in Rxs, Rxe, Rys, Rye, Rlp, Rrp.
  pose proof (border_length (xe - xs - 2) dash ltac:(lia)) as Hlen.
  (* top border *)
  eapply completes_bind; [ apply completes_border_line; lia | ].
  intros line1 ->.
  eapply completes_bind.
  { apply completes_write_string; [ split; lia | lia | | lia ].
    intros i Hi. apply Hcells; lia. }
  intros _ _.
  eapply completes_bind.
  { apply completes_rows_between;
      first [ split; lia | lia
            | intros r c Hr Hc; apply Hcells; lia ]. }
  intros _ _.
  (* text row *)
  eapply completes_bind.
  { apply completes_store. apply Hcells; lia. }
  intros _ _.
  eapply completes_bind.
  { apply completes_write_string; [ split; lia | fold sw; lia | | lia ].
    intros i Hi. fold sw in Hi.
    replace (xs + lp + i) with (xs + (lp + i)) by lia.
    apply Hcells; lia. }
  intros col_idx ->. fold sw.
  eapply completes_bind; [ apply completes_make_string; lia | ].
  intros padding ->.
  eapply completes_bind.
  { apply completes_concat. rewrite repeat_length. cbn [List.length]. lia. }
  intros line2 ->.
  assert (Hlen2 : Z.of_nat (List.length
                              (repeat space (Z.to_nat (rp - 1)) ++ [bar]))
                  = rp).
  { rewrite length_app, repeat_length. cbn [List.length]. lia. }
  eapply completes_bind.
  { apply completes_write_string; [ split; lia | lia | | lia ].
    intros i Hi. rewrite Hlen2 in Hi. apply Hcells; lia. }
  intros _ _.
  eapply completes_bind.
  { apply completes_rows_between;
      first [ split; lia | lia
            | intros r c Hr Hc; apply Hcells; lia ]. }
  intros _ _.
  (* bottom border *)
  eapply completes_bind; [ apply completes_border_line; lia | ].
  intros line3 ->.
  eapply completes_bind_ret; [ | exact I ].
  apply completes_write_string; [ split; lia | lia | | lia ].
  intros i Hi. apply Hcells; lia.
Qed.

End DrawCompletes.

Section DrawTheorems.

Lemma cell_has_cell (b : Draw.buffer_t) (row col : Z) :
  0 <= row -> 0 <= col -> cell b row col <> None ->
  has_cell (shape b) row col.
Proof.
  intros Hrow Hcol Hcell. unfold cell in Hcell.
  split; [ exact Hrow | split; [ exact Hcol | ] ].
  rewrite shape_nth_error.
  destruct (nth_error b (Z.to_nat row)) as [ r | ]; [ | congruence ].
  exists (List.length r). split; [ reflexivity | ].
  apply nth_error_Some in Hcell. lia.
Qed.

(** X18: when every position of the frame exists in the buffer, the
    frame is at least two columns wide, its top row is not below its
    bottom row and [max_size] allows a string as wide as the frame, the
    draw operation ends normally, keeps the shape of the buffer and
    leaves the bottom row of the frame reading a bar, dashes and a bar. *)
Theorem renderer_draw_completes_bottom_border
  (max_size : Z) (script : string) (stage : val.Stage)
  (xs xe ys ye : Z) (b : Draw.buffer_t) :
  to_size_t (val.left stage) = Some xs ->
  to_size_t (val.right stage) = Some xe ->
  to_size_t (val.top stage) = Some ys ->
  to_size_t (val.bottom stage) = Some ye ->
  xs + 2 <= xe ->
  ys <= ye ->
  ye < SizeT.modulus - 1 ->
  xe - xs <= max_size ->
  (forall r c, ys <= r <= ye -> xs <= c < xe -> cell b r c <> None) ->
  exists b',
    renderer_draw max_size script stage b = Draw.Done tt b' /\
    shape b' = shape b /\
    reads b' ye xs (bar :: repeat dash (Z.to_nat (xe - xs - 2)) ++ [bar]).
Proof.
  intros Hl Hr Ht Hb Hwide Hrows Hlast Hmax Hcells.
  pose proof (to_size_t_in_range _ _ Hl) as [Hxs _].
  pose proof (to_size_t_in_range _ _ Ht) as [Hys _].
  destruct (renderer_draw_completes max_size script stage xs xe ys ye
              (shape b) Hl Hr Ht Hb Hwide Hrows Hlast Hmax) with (b := b)
    as ([] & b' & Hrun & Hshape & _ & Hreads).
  - intros r c Hrc Hcc. apply cell_has_cell; [ lia | lia | ].
    now apply Hcells.
  - reflexivity.
  - exists b'. auto.
Qed.

Lemma renderer_draw_completes_bottom_border_witness :
  let stage := val.mkStage (F32.of_Z 1) (F32.of_Z 7)
                           (F32.of_Z 0) (F32.of_Z 2) in
  let b := val.buffer (make_screen 10 4) in
  to_size_t (val.left stage) = Some 1 /\
  to_size_t (val.right stage) = Some 7 /\
  to_size_t (val.top stage) = Some 0 /\
  to_size_t (val.bottom stage) = Some 2 /\
  (forall r c, 0 <= r <= 2 -> 1 <= c < 7 -> cell b r c <> None) /\
  exists b',
    renderer_draw 1000 "Hi" stage b = Draw.Done tt b' /\
    shape b' = shape b /\
    reads b' 2 1 (bar :: repeat dash (Z.to_nat (7 - 1 - 2)) ++ [bar]).
Proof.
  cbv zeta.
  assert (Hcells : forall r c, 0 <= r <= 2 -> 1 <= c < 7 ->
                     cell (val.buffer (make_screen 10 4)) r c <> None).
  { intros r c Hr Hc.
    assert (Er : r = 0 \/ r = 1 \/ r = 2) by lia.
    assert (Ec : c = 1 \/ c = 2 \/ c = 3 \/ c = 4 \/ c = 5 \/ c = 6) by lia.
    destruct Er as [-> | [-> | ->]];
      destruct Ec as [-> | [-> | [-> | [-> | [-> | ->]]]]];
      vm_compute; discriminate. }
  do 4 (split; [ vm_compute; reflexivity | ]).
  split; [ exact Hcells | ].
  apply (renderer_draw_completes_bottom_border 1000 "Hi"
           (val.mkStage (F32.of_Z 1) (F32.of_Z 7) (F32.of_Z 0) (F32.of_Z 2))
           1 7 0 2 (val.buffer (make_screen 10 4))).
  - vm_compute; reflexivity.
  - vm_compute; reflexivity.
  - vm_compute; reflexivity.
  - vm_compute; reflexivity.
  - lia.
  - lia.
  - unfold SizeT.modulus; lia.
  - lia.
  - exact Hcells.
Defined.

(** X19: a placement whose right column, once truncated, is not beyond
    its left column makes the draw operation throw the runtime error
    of the source before it has written anything. *)
Theorem renderer_draw_degenerate_throws
  (max_size : Z) (script : string) (stage : val.Stage)
  (xs xe : Z) (b : Draw.buffer_t) :
  to_size_t (val.left stage) = Some xs ->
  to_size_t (val.right stage) = Some xe ->
  xe <= xs ->
  renderer_draw max_size script stage b
  = Draw.Throws (Draw.runtime_error "These values make no sense.") b.
Proof.
  intros Hl Hr Hle.
  unfold renderer_draw, Draw.bind, Draw.cast_size_t.
  change (to_size_t border_size) with (Some 1).
  rewrite Hl, Hr. unfold Draw.ret.
  apply Z.leb_le in Hle. now rewrite Hle.
Qed.

Lemma renderer_draw_degenerate_throws_witness :
  let stage := val.mkStage (F32.of_Z 7) (F32.of_Z 7)
                           (F32.of_Z 0) (F32.of_Z 2) in
  to_size_t (val.left stage) = Some 7 /\
  to_size_t (val.right stage) = Some 7 /\
  7 <= 7 /\
  renderer_draw 1000 "Hi" stage (val.buffer (make_screen 10 4))
  = Draw.Throws (Draw.runtime_error "These values make no sense.")
                (val.buffer (make_screen 10 4)).
Proof.
  cbv zeta.
  do 2 (split; [ vm_compute; reflexivity | ]).
  split; [ lia | ].
  apply (renderer_draw_degenerate_throws 1000 "Hi"
           (val.mkStage (F32.of_Z 7) (F32.of_Z 7) (F32.of_Z 0) (F32.of_Z 2))
           7 7 (val.buffer (make_screen 10 4))).
  - vm_compute; reflexivity.
  - vm_compute; reflexivity.
  - lia.
Defined.

End DrawTheorems.

(** ** The placement the renderer reports *)

Section RendererStage.

Import val.
Import dir.stack.

Lemma stack_instruct_high
  (d : Director) (stage : Stage) (cursor : StageLayout) :
  stack_director d ->
  high (horizontal (instruct d stage cursor)) = lnt (right stage).
Proof.
  intros [-> | [-> | ->]]; cbn [instruct horizontally vertically magically];
    try reflexivity.
  unfold magically_next. now destruct (aspect stage).
Qed.

(** X20: under each of the three stack directors, and on a stage whose
    right edge is a number, a placement the renderer reports starts at
    the low bounds of the instruction and its right edge is at or left
    of the right edge of the stage. *)
Theorem renderer_stage_within_right_edge
  (d : Director) (stage : Stage) (cursor : StageLayout)
  (script : string) (p : Stage) :
  stack_director d ->
  F32.is_nan (right stage) = false ->
  renderer_stage (instruct d stage cursor) script = Some p ->
  (right p <=? right stage)%f32 = true /\
  left p = extract (low (horizontal (instruct d stage cursor))) /\
  top p = extract (low (vertical (instruct d stage cursor))).
Proof.
  intros Hd Hnan. unfold renderer_stage.
  rewrite (stack_instruct_high d stage cursor Hd).
  destruct (to_size_t _) as [ available | ]; [ | discriminate ].
  intros [= <-]. cbn [left right top resolve_direction].
  split; [ | split; reflexivity ].
  now apply std_min_leb_l.
Qed.

Lemma renderer_stage_within_right_edge_witness :
  let p := mkStage (F32.of_Z 0) (F32.of_Z 7) (F32.of_Z 0) (F32.of_Z 2) in
  stack_director horizontally /\
  F32.is_nan (right scenario1_stage) = false /\
  renderer_stage (instruct horizontally scenario1_stage scenario1_cursor)
                 "First" = Some p /\
  (right p <=? right scenario1_stage)%f32 = true.
Proof.
  cbv zeta.
  split; [ left; reflexivity | ].
  split; [ reflexivity | ].
  split; [ vm_compute; reflexivity | ].
  apply (renderer_stage_within_right_edge horizontally scenario1_stage
           scenario1_cursor "First"
           (mkStage (F32.of_Z 0) (F32.of_Z 7) (F32.of_Z 0) (F32.of_Z 2))).
  - left; reflexivity.
  - reflexivity.
  - vm_compute; reflexivity.
Defined.

End RendererStage.

(** ** The exceptions of the draw operation *)

Section DrawExceptions.

Variable E : Draw.exception -> Prop.
Variable max_size : Z.







Hypothesis length_error_allowed : E Draw.length_error.





End DrawExceptions.

Section DrawExceptionsTheorem.


End DrawExceptionsTheorem.
